(** * Blue-noise sampling of a triangle mesh: a shallow embedding

    The functions of [mesh-sampling.py] ([mesh_area],
    [triangle_point_picking], [uniform_sample_mesh] and
    [blue_noise_sample_elimination]) are transcribed as Rocq functions.

    The sampling functions are written once over an arithmetic interface
    [Arith], instantiated with the real numbers (the arithmetic the design
    document reasons in) and with binary64 floats (the arithmetic numpy
    runs, with its NaN and infinities).  The elimination engine is
    transcribed over the reals; counts and indices are natural numbers.
    A statement made at the real instance is a statement about exact
    arithmetic; what binary64 rounding changes is stated on the float
    instance.
    Randomness is an explicit input: the array of uniform draws is an
    argument, and the library routine that draws triangle indices is a
    parameter.  The calls into scipy ([pdist], [squareform], [KDTree]) are
    transcribed by what they compute. *)

From Stdlib Require Import List Arith Lia Bool Reals Lra Psatz.
From Stdlib Require Import Sorted Permutation.
From Stdlib Require PrimFloat FloatAxioms SpecFloat.
From Stdlib Require Ascii String.
Import ListNotations.

(** ** Exceptions and results *)

(** Python exceptions the transcribed code can raise by itself
    ([IndexError]: list or array index out of range, [KeyError]:
    [set.remove] of an absent element, [ValueError]: raised by the index
    chooser), followed by the three error classes named in the design
    document.  No function of the source constructs one of the last three. *)
Inductive exn : Type :=
| IndexError
| KeyError
| ValueError
| GeometryError
| InvalidDistributionError
| InsufficientCandidatesError.

Inductive result (A : Type) : Type :=
| Ok (a : A)
| Raise (e : exn).

Arguments Ok {A} a.
Arguments Raise {A} e.

Definition bind {A B : Type} (c : result A) (k : A -> result B) : result B :=
  match c with
  | Ok a => k a
  | Raise e => Raise e
  end.

Notation "'do' x <- c ;; k" := (bind c (fun x => k))
  (at level 10, x name, c at level 100, k at level 200).

(** [l[i]] on a Python list or a numpy array, for [0 <= i]. *)
Definition index {A : Type} (l : list A) (i : nat) : result A :=
  match nth_error l i with
  | Some a => Ok a
  | None => Raise IndexError
  end.

(** [enumerate(l)]. *)
Definition enumerate {A : Type} (l : list A) : list (nat * A) :=
  combine (seq 0 (length l)) l.

(** [l[ids]]: numpy indexing by a list of indices. *)
Fixpoint take_ids {A : Type} (l : list A) (ids : list nat) : result (list A) :=
  match ids with
  | [] => Ok []
  | i :: ids' =>
      do a <- index l i ;;
      do rest <- take_ids l ids' ;;
      Ok (a :: rest)
  end.

(** ** The arithmetic interface *)

Class Arith (F : Type) : Type := {
  lit0 : F;                 (* 0. *)
  lit1 : F;                 (* 1. *)
  lit_half : F;             (* .5 *)
  fadd : F -> F -> F;
  fsub : F -> F -> F;
  fmul : F -> F -> F;
  fdiv : F -> F -> F;
  fopp : F -> F;
  fsqrt : F -> F;
  fgtb : F -> F -> bool     (* x > y *)
}.

Definition Rgtb (x y : R) : bool := if Rgt_dec x y then true else false.
Definition Rleb (x y : R) : bool := if Rle_dec x y then true else false.

#[export] Instance R_arith : Arith R := {
  lit0 := 0%R;
  lit1 := 1%R;
  lit_half := (/ 2)%R;
  fadd := Rplus;
  fsub := Rminus;
  fmul := Rmult;
  fdiv := Rdiv;
  fopp := Ropp;
  fsqrt := sqrt;
  fgtb := Rgtb
}.

(** Float literals: [.5] of the source, and two draws used in examples. *)
Module FloatLit.
Import PrimFloat.
Definition half : float := 0.5%float.
Definition quarter : float := 0.25%float.
Definition three_quarters : float := 0.75%float.
End FloatLit.

#[export] Instance float_arith : Arith PrimFloat.float := {
  lit0 := PrimFloat.zero;
  lit1 := PrimFloat.one;
  lit_half := FloatLit.half;
  fadd := PrimFloat.add;
  fsub := PrimFloat.sub;
  fmul := PrimFloat.mul;
  fdiv := PrimFloat.div;
  fopp := PrimFloat.opp;
  fsqrt := PrimFloat.sqrt;
  fgtb := fun x y => PrimFloat.ltb y x
}.

(** ** Vectors and triangles *)

Record vec3 (F : Type) : Type := mk3 { vx : F; vy : F; vz : F }.

Arguments mk3 {F} vx vy vz.
Arguments vx {F} v.
Arguments vy {F} v.
Arguments vz {F} v.

(** A row of [triangle_list]: three vertices. *)
Record triangle (F : Type) : Type :=
  mkT { v0 : vec3 F; v1 : vec3 F; v2 : vec3 F }.

Arguments mkT {F} v0 v1 v2.
Arguments v0 {F} t.
Arguments v1 {F} t.
Arguments v2 {F} t.

Section Sampling.

Context {F : Type} `{Arith F}.

Definition vadd (a b : vec3 F) : vec3 F :=
  mk3 (fadd (vx a) (vx b)) (fadd (vy a) (vy b)) (fadd (vz a) (vz b)).

Definition vsub (a b : vec3 F) : vec3 F :=
  mk3 (fsub (vx a) (vx b)) (fsub (vy a) (vy b)) (fsub (vz a) (vz b)).

(** [numpy.cross(a, b)] on one row. *)
Definition cross (a b : vec3 F) : vec3 F :=
  mk3 (fsub (fmul (vy a) (vz b)) (fmul (vz a) (vy b)))
      (fsub (fmul (vz a) (vx b)) (fmul (vx a) (vz b)))
      (fsub (fmul (vx a) (vy b)) (fmul (vy a) (vx b))).

(** [numpy.sum(N ** 2, axis = 1)] on one row. *)
Definition sum_sq (n : vec3 F) : F :=
  fadd (fadd (fmul (vx n) (vx n)) (fmul (vy n) (vy n))) (fmul (vz n) (vz n)).

(** [numpy.sum] of a vector, added from the left.  numpy adds a long
    vector in blocks; over the reals the order of the additions does not
    matter, and the binary64 statements about sums (a sum of zeros, a sum
    with a NaN in it) hold for every order. *)
Definition fsum (l : list F) : F := fold_left fadd l lit0.

(** *** mesh_area (lines 15-19)

    The argument is an array of shape [(n, 3, 3)], one row per triangle.
    What [main] builds from a mesh without triangles, [numpy.array([])],
    has a single dimension: on it the first index expression of the
    function raises [IndexError], which is transcribed in [main]. *)
Definition mesh_area (triangle_list : list (triangle F)) : list F :=
  let N := map (fun t => cross (vsub (v1 t) (v0 t)) (vsub (v2 t) (v0 t)))
               triangle_list in
  let N_norm := map (fun n => fsqrt (sum_sq n)) N in
  map (fun a => fmul a lit_half) N_norm.

(** *** triangle_point_picking (lines 23-34) *)

(** One row of [numpy.dot(X[t], reflection) + 1.] with
    [reflection = [[0., -1.], [-1., 0.]]]. *)
Definition reflect (x : F * F) : F * F :=
  let '(u, v) := x in
  (fadd (fadd (fmul u lit0) (fmul v (fopp lit1))) lit1,
   fadd (fadd (fmul u (fopp lit1)) (fmul v lit0)) lit1).

(** Lines 28-29: the rows with [u + v > 1] are replaced by their
    reflection. *)
Definition fold_square (x : F * F) : F * F :=
  if fgtb (fadd (fst x) (snd x)) lit1 then reflect x else x.

(** Lines 32-33 on one row: the [einsum] contracts the two edge vectors
    with [(u, v)], then [v0] is added. *)
Definition map_to_triangle (t : triangle F) (x : F * F) : vec3 F :=
  let e1 := vsub (v1 t) (v0 t) in
  let e2 := vsub (v2 t) (v0 t) in
  let '(u, v) := x in
  let ret := mk3 (fadd (fmul (vx e1) u) (fmul (vx e2) v))
                 (fadd (fmul (vy e1) u) (fmul (vy e2) v))
                 (fadd (fmul (vz e1) u) (fmul (vz e2) v)) in
  vadd ret (v0 t).

(** [X] is the array returned by [numpy.random.random((n, 2))], given by
    its rows: [X i] is the pair drawn for the [i]-th triangle. *)
Definition triangle_point_picking
    (triangle_list : list (triangle F)) (X : nat -> F * F) : list (vec3 F) :=
  map (fun it => map_to_triangle (snd it) (fold_square (X (fst it))))
      (enumerate triangle_list).

(** *** uniform_sample_mesh (lines 38-49) *)

(** [numpy.random.choice(n, size = k, p = ...)] is a library routine, taken
    as a parameter: it either raises or returns a list of indices. *)
Definition chooser : Type := nat -> nat -> list F -> result (list nat).

Definition uniform_sample_mesh (choice : chooser)
    (triangle_list : list (triangle F)) (triangle_area_list : list F)
    (sample_count : nat) (X : nat -> F * F) : result (list (vec3 F)) :=
  let total := fsum triangle_area_list in
  let triangle_area := map (fun a => fdiv a total) triangle_area_list in
  do triangle_id_list <-
    choice (length triangle_list) sample_count triangle_area ;;
  do picked <- take_ids triangle_list triangle_id_list ;;
  Ok (triangle_point_picking picked X).

End Sampling.

(** ** Python lists, sets and sorting *)

(** A comprehension whose body can raise. *)
Fixpoint mapM {A B : Type} (f : A -> result B) (l : list A)
  : result (list B) :=
  match l with
  | [] => Ok []
  | a :: l' =>
      do b <- f a ;;
      do bs <- mapM f l' ;;
      Ok (b :: bs)
  end.

(** [list.pop()]: removes and returns the last element. *)
Definition pop {A : Type} (l : list A) : result (A * list A) :=
  match rev l with
  | [] => Raise IndexError
  | x :: r => Ok (x, rev r)
  end.

(** A Python set of integers is kept as a duplicate-free list. *)
Definition mem (i : nat) (s : list nat) : bool := existsb (Nat.eqb i) s.

(** The set without [i]. *)
Definition drop (i : nat) (s : list nat) : list nat :=
  filter (fun j => negb (j =? i)) s.

(** [set.remove(i)]. *)
Definition set_remove (i : nat) (s : list nat) : result (list nat) :=
  if mem i s then Ok (drop i s) else Raise KeyError.

(** [sorted(...)] and [list.sort()]: a stable sort driven by [<]. *)
Fixpoint insert {A : Type} (ltb : A -> A -> bool) (x : A) (l : list A)
  : list A :=
  match l with
  | [] => [x]
  | y :: l' => if ltb x y then x :: y :: l' else y :: insert ltb x l'
  end.

Definition sorted {A : Type} (ltb : A -> A -> bool) (l : list A) : list A :=
  fold_left (fun acc x => insert ltb x acc) l [].

(** The order a sort by [<] produces: [a] may stand before [b]. *)
Definition le_of {A : Type} (ltb : A -> A -> bool) (a b : A) : Prop :=
  ltb b a = false.

Definition Rltb (x y : R) : bool := if Rlt_dec x y then true else false.

(** [<] on the tuples [(w, i)] of the heap: the first components decide
    unless they are equal. *)
Definition tuple_ltb (a b : R * nat) : bool :=
  if Req_dec_T (fst a) (fst b) then snd a <? snd b
  else Rltb (fst a) (fst b).

(** ** The elimination engine (lines 53-84), over the reals *)

Section Elimination.

Local Open Scope R_scope.

Definition point : Type := vec3 R.

(** The Euclidean metric of [pdist] and of the k-d tree. *)
Definition euclidean (a b : point) : R :=
  sqrt ((vx a - vx b) * (vx a - vx b) + (vy a - vy b) * (vy a - vy b)
        + (vz a - vz b) * (vz a - vz b)).

(** [squareform(pdist(point_list))]: [pdist] measures each pair [i < j]
    once, [squareform] mirrors it and puts zeros on the diagonal. *)
Definition squareform_pdist (point_list : list point) : list (list R) :=
  map (fun ia =>
         map (fun jb =>
                if (fst ia <? fst jb)%nat then euclidean (snd ia) (snd jb)
                else if (fst jb <? fst ia)%nat then euclidean (snd jb) (snd ia)
                else 0)
             (enumerate point_list))
      (enumerate point_list).

(** [KDTree(point_list).query_ball_point(x, r)]: the indices of the points
    at distance at most [r] of [x].  They are listed in increasing order;
    the source only sums over the result and turns it into a set. *)
Definition query_ball_point (point_list : list point) (x : point) (r : R)
  : list nat :=
  map fst (filter (fun jp => Rleb (euclidean (snd jp) x) r)
                  (enumerate point_list)).

(** [D[i, j]]. *)
Definition get2 (D : list (list R)) (i j : nat) : result R :=
  do row <- index D i ;;
  index row j.

Definition alpha : nat := 8.

(** Line 56.  Over the reals [sqrt] and the division are total ([sqrt] of
    a negative number and [x / 0] are 0) where numpy gives NaN or an
    infinity: the statements that depend on the value of the radius assume
    a positive area and a positive sample count. *)
Definition rmax (mesh_surface_area : R) (sample_count : nat) : R :=
  sqrt (mesh_surface_area / ((2 * INR sample_count) * sqrt 3)).

(** Lines 62-63. *)
Definition weight_matrix (point_list : list point) (rmax : R)
  : list (list R) :=
  let D := map (map (fun d => Rmin d (2 * rmax)))
               (squareform_pdist point_list) in
  map (map (fun d => (1 - (d / (2 * rmax))) ^ alpha)) D.

(** Lines 65-67; Python's [sum] adds from the left, starting at 0. *)
Definition initial_weights (point_list : list point) (D : list (list R))
    (rmax : R) : result (list R) :=
  mapM (fun i =>
          do x <- index point_list i ;;
          do terms <- mapM (fun j => get2 D i j)
                        (filter (fun j => negb (i =? j)%nat)
                                (query_ball_point point_list x (2 * rmax))) ;;
          Ok (fold_left Rplus terms 0))
       (seq 0 (length point_list)).

(** The loop state: the sorted list [heap] of pairs [(w, i)] and
    [id_set]. *)
Record state : Type := mkState { heap : list (R * nat); id_set : list nat }.

(** Line 70 and line 72. *)
Definition initial_state (point_list : list point) (W : list R) : state :=
  mkState (sorted tuple_ltb (map (fun iw => (snd iw, fst iw)) (enumerate W)))
          (seq 0 (length point_list)).

(** Lines 75-81: one pass through the body of the [while]. *)
Definition elimination_step (point_list : list point) (D : list (list R))
    (rmax : R) (st : state) : result state :=
  do popped <- pop (heap st) ;;
  let i := snd (fst popped) in
  let heap1 := snd popped in
  do id_set1 <- set_remove i (id_set st) ;;
  do x <- index point_list i ;;
  let neighbor_set := query_ball_point point_list x (2 * rmax) in
  do neighbor_set1 <- set_remove i neighbor_set ;;
  do heap2 <- mapM (fun wj =>
                   if mem (snd wj) neighbor_set1
                   then do d <- get2 D i (snd wj) ;; Ok (fst wj - d, snd wj)
                   else Ok wj)
                heap1 ;;
  Ok (mkState (sorted tuple_ltb heap2) id_set1).

(** Lines 73-81.  [fuel] bounds the number of passes; [None] means the
    bound was reached with the loop condition still true. *)
Fixpoint elimination_loop (fuel : nat) (point_list : list point)
    (D : list (list R)) (rmax : R) (sample_count : nat) (st : state)
  : option (result state) :=
  if (sample_count <? length (id_set st))%nat then
    match fuel with
    | O => None
    | S fuel' =>
        match elimination_step point_list D rmax st with
        | Ok st' => elimination_loop fuel' point_list D rmax sample_count st'
        | Raise e => Some (Raise e)
        end
    end
  else Some (Ok st).

(** Lines 53-84.  One pass removes one index, so [length point_list]
    passes are always enough. *)
Definition blue_noise_sample_elimination (point_list : list point)
    (mesh_surface_area : R) (sample_count : nat)
  : option (result (list point)) :=
  let rmax := rmax mesh_surface_area sample_count in
  let D := weight_matrix point_list rmax in
  match initial_weights point_list D rmax with
  | Raise e => Some (Raise e)
  | Ok W =>
      match elimination_loop (length point_list) point_list D rmax
                             sample_count (initial_state point_list W) with
      | None => None
      | Some (Raise e) => Some (Raise e)
      | Some (Ok st) => Some (take_ids point_list (sorted Nat.ltb (id_set st)))
      end
  end.

End Elimination.

(** ** Vocabulary of the statements *)

Section RealGeometry.

Local Open Scope R_scope.

Definition dot (a b : vec3 R) : R :=
  vx a * vx b + vy a * vy b + vz a * vz b.

(** The Euclidean norm. *)
Definition vnorm (a : vec3 R) : R := sqrt (dot a a).

(** The three vertices lie on one line through [v0]. *)
Definition collinear (t : triangle R) : Prop :=
  exists (d : vec3 R) (s1 s2 : R),
    v1 t = mk3 (vx (v0 t) + s1 * vx d) (vy (v0 t) + s1 * vy d)
               (vz (v0 t) + s1 * vz d) /\
    v2 t = mk3 (vx (v0 t) + s2 * vx d) (vy (v0 t) + s2 * vy d)
               (vz (v0 t) + s2 * vz d).

(** [v0 + u (v1 - v0) + v (v2 - v0)]. *)
Definition barycentric_point (t : triangle R) (u v : R) : vec3 R :=
  mk3 (vx (v0 t) + u * (vx (v1 t) - vx (v0 t)) + v * (vx (v2 t) - vx (v0 t)))
      (vy (v0 t) + u * (vy (v1 t) - vy (v0 t)) + v * (vy (v2 t) - vy (v0 t)))
      (vz (v0 t) + u * (vz (v1 t) - vz (v0 t)) + v * (vz (v2 t) - vz (v0 t))).

(** Membership in the convex hull of the three vertices. *)
Definition in_triangle (t : triangle R) (p : vec3 R) : Prop :=
  exists a b c : R,
    0 <= a /\ 0 <= b /\ 0 <= c /\ a + b + c = 1 /\
    p = mk3 (a * vx (v0 t) + b * vx (v1 t) + c * vx (v2 t))
            (a * vy (v0 t) + b * vy (v1 t) + c * vy (v2 t))
            (a * vz (v0 t) + b * vz (v1 t) + c * vz (v2 t)).

Definition in_unit_square (x : R * R) : Prop :=
  0 <= fst x <= 1 /\ 0 <= snd x <= 1.

(** The right triangle with legs 1 on the x and y axes. *)
Definition unit_triangle : triangle R :=
  mkT (mk3 0 0 0) (mk3 1 0 0) (mk3 0 1 0).

End RealGeometry.

Section FloatVocabulary.

(** NaN or an infinity. *)
Definition nonfinite (x : PrimFloat.float) : bool :=
  negb (PrimFloat.is_finite x).

Definition NF (x : PrimFloat.float) : Prop := nonfinite x = true.

(** The same test on the specification-level view of a float. *)
Definition SF_nonfinite (s : SpecFloat.spec_float) : bool :=
  match s with
  | SpecFloat.S754_nan | SpecFloat.S754_infinity _ => true
  | _ => false
  end.

(** The nine coordinates of a triangle. *)
Definition coordinates {F : Type} (t : triangle F) : list F :=
  [vx (v0 t); vy (v0 t); vz (v0 t);
   vx (v1 t); vy (v1 t); vz (v1 t);
   vx (v2 t); vy (v2 t); vz (v2 t)].

(** Two stand-ins for the index chooser: both return index 0 for every
    draw; the first rejects a probability vector that contains a NaN, the
    second does not look at it. *)
Definition choice_checked : chooser (F := PrimFloat.float) :=
  fun _ size p =>
    if existsb PrimFloat.is_nan p then Raise ValueError
    else Ok (repeat 0%nat size).

Definition choice_unchecked : chooser (F := PrimFloat.float) :=
  fun _ size _ => Ok (repeat 0%nat size).

(** A triangle whose three vertices coincide at the origin. *)
Definition point_triangle : triangle PrimFloat.float :=
  let o := mk3 PrimFloat.zero PrimFloat.zero PrimFloat.zero in
  mkT o o o.

(** The right triangle with legs 1 on the x and y axes, in binary64. *)
Definition unit_triangle_float : triangle PrimFloat.float :=
  mkT (mk3 PrimFloat.zero PrimFloat.zero PrimFloat.zero)
      (mk3 PrimFloat.one PrimFloat.zero PrimFloat.zero)
      (mk3 PrimFloat.zero PrimFloat.one PrimFloat.zero).

(** A triangle with one NaN coordinate. *)
Definition nan_triangle : triangle PrimFloat.float :=
  mkT (mk3 PrimFloat.nan PrimFloat.zero PrimFloat.zero)
      (mk3 PrimFloat.one PrimFloat.zero PrimFloat.zero)
      (mk3 PrimFloat.zero PrimFloat.one PrimFloat.zero).

End FloatVocabulary.

Section EliminationVocabulary.

Local Open Scope R_scope.

Definition origin : point := mk3 0 0 0.

(** The candidate point of index [i], and the distance of two candidates. *)
Definition pt (point_list : list point) (i : nat) : point :=
  nth i point_list origin.

Definition distance (point_list : list point) (i j : nat) : R :=
  euclidean (pt point_list i) (pt point_list j).

(** The weight of a pair at distance [d], as the design document writes
    it: [(1 - min(d, 2 rmax) / (2 rmax)) ^ 8]. *)
Definition pair_weight (d rmax : R) : R :=
  (1 - Rmin d (2 * rmax) / (2 * rmax)) ^ 8.

Definition Rsum (l : list R) : R := fold_right Rplus 0 l.

(** [j] lies within the interaction radius [2 rmax] of [i]. *)
Definition within (point_list : list point) (rmax : R) (i j : nat) : bool :=
  Rleb (distance point_list i j) (2 * rmax).

(** The total weight of [i] against the surviving points [ids]: the sum of
    the pair weights over the surviving neighbours of [i]. *)
Definition current_total_weight (point_list : list point) (rmax : R)
    (ids : list nat) (i : nat) : R :=
  Rsum (map (fun j => pair_weight (distance point_list i j) rmax)
            (filter (fun j => negb (j =? i)%nat && within point_list rmax i j)
                    ids)).

(** The weight the heap stores for index [j]. *)
Definition weight_of (h : list (R * nat)) (j : nat) : option R :=
  option_map fst (find (fun wj => (snd wj =? j)%nat) h).

(** What line 80 does to one heap entry when [i] has been popped. *)
Definition decrement (point_list : list point) (rmax : R) (i : nat)
    (wj : R * nat) : R * nat :=
  if within point_list rmax i (snd wj)
  then (fst wj - pair_weight (distance point_list i (snd wj)) rmax, snd wj)
  else wj.

(** The states the loop of a call goes through. *)
Inductive reachable (point_list : list point) (mesh_surface_area : R)
    (sample_count : nat) : state -> Prop :=
| reach_init (W : list R) :
    initial_weights point_list
      (weight_matrix point_list (rmax mesh_surface_area sample_count))
      (rmax mesh_surface_area sample_count) = Ok W ->
    reachable point_list mesh_surface_area sample_count
              (initial_state point_list W)
| reach_step (st st' : state) :
    reachable point_list mesh_surface_area sample_count st ->
    (sample_count < length (id_set st))%nat ->
    elimination_step point_list
      (weight_matrix point_list (rmax mesh_surface_area sample_count))
      (rmax mesh_surface_area sample_count) st = Ok st' ->
    reachable point_list mesh_surface_area sample_count st'.

(** The loop invariant. *)
Record Inv (point_list : list point) (rmax : R) (st : state) : Prop := {
  inv_sorted : StronglySorted (le_of tuple_ltb) (heap st);
  inv_perm : Permutation (map snd (heap st)) (id_set st);
  inv_nodup : NoDup (id_set st);
  inv_range : Forall (fun i => (i < length point_list)%nat) (id_set st);
  inv_weight :
    Forall (fun wj => fst wj = current_total_weight point_list rmax
                                 (id_set st) (snd wj))
           (heap st)
}.

End EliminationVocabulary.

Section Examples.

Local Open Scope R_scope.

(** Three candidate points, and the state the loop starts in on them for
    a surface area of 1 and a target of 2 points. *)
Definition three_points : list point :=
  [mk3 0 0 0; mk3 1 0 0; mk3 0 1 0].

Definition three_points_start : state :=
  initial_state three_points
    (map (current_total_weight three_points (rmax 1 2) (seq 0 3)) (seq 0 3)).

End Examples.

(** ** The pipeline of [main] (lines 88-116), over the reals *)

Section Pipeline.

Local Open Scope R_scope.

(** What a run of [main] ends in: a call of [sys.exit] with a status
    after some text was written, the scatter plot of a point list on the
    screen, an exception of the transcribed code that nobody catches, or
    an exception raised inside the plotting library, known by its name. *)
Inductive outcome : Type :=
| Exited (status : nat) (text : String.string)
| Shown (point_list : list point)
| Uncaught (e : exn)
| UncaughtForeign (name : String.string).

Definition newline : String.string :=
  String.String (Ascii.ascii_of_nat 10) String.EmptyString.

(** The three places where [main] meets the outside are inputs.

    [args] is what [parser.parse_args()] does (lines 92-99): it ends the
    run by itself, with a status and a text (a usage error, or the help),
    or it returns the sample count, here a natural number.

    [loaded] is what [stlparser.load(sys.stdin)] gives: the message of a
    [ParseError], or the pairs of a triangle and its normal.  With no
    triangle at all [numpy.array([])] is one-dimensional and the first
    [triangle_list[:,1]] of [mesh_area] raises [IndexError].

    [display] stands for lines 111-116, the calls into matplotlib:
    [None] when the plot was shown, the name of the exception otherwise.

    One random array [X] serves the single call of
    [triangle_point_picking].  [None] is passed on from the elimination
    loop's fuel. *)
Definition main (args : nat * String.string + nat)
    (loaded : String.string + list (triangle R * vec3 R))
    (choice : chooser) (X : nat -> R * R)
    (display : list point -> option String.string) : option outcome :=
  match args with
  | inl (status, text) => Some (Exited status text)
  | inr sample_count =>
      match loaded with
      | inl e => Some (Exited 0 (String.append e newline))
      | inr mesh =>
          let triangle_list := map fst mesh in
          match triangle_list with
          | [] => Some (Uncaught IndexError)
          | _ :: _ =>
              let tri_area := mesh_area triangle_list in
              match uniform_sample_mesh choice triangle_list tri_area
                                        (4 * sample_count) X with
              | Raise e => Some (Uncaught e)
              | Ok point_list =>
                  match blue_noise_sample_elimination
                          point_list (fsum tri_area) sample_count with
                  | None => None
                  | Some (Raise e) => Some (Uncaught e)
                  | Some (Ok selected) =>
                      match display selected with
                      | None => Some (Shown selected)
                      | Some name => Some (UncaughtForeign name)
                      end
                  end
              end
          end
      end
  end.

End Pipeline.

(** ** Further vocabulary *)

Section MoreVocabulary.

Local Open Scope R_scope.

(** A point moved by the vector [t], and a point scaled by [s]. *)
Definition shift (t p : vec3 R) : vec3 R :=
  mk3 (vx p + vx t) (vy p + vy t) (vz p + vz t).

Definition scale (s : R) (p : vec3 R) : vec3 R :=
  mk3 (s * vx p) (s * vy p) (s * vz p).

Definition map_triangle (f : vec3 R -> vec3 R) (t : triangle R)
  : triangle R :=
  mkT (f (v0 t)) (f (v1 t)) (f (v2 t)).

(** The point lies in one of the triangles. *)
Definition on_mesh (triangle_list : list (triangle R)) (p : vec3 R) : Prop :=
  exists t : triangle R, In t triangle_list /\ in_triangle t p.

(** A value mapped under [Ok]. *)
Definition result_map {A B : Type} (f : A -> B) (c : result A) : result B :=
  match c with
  | Ok a => Ok (f a)
  | Raise e => Raise e
  end.

(** The probability vector [uniform_sample_mesh] hands to the chooser. *)
Definition normalized {F : Type} `{Arith F} (triangle_area_list : list F)
  : list F :=
  map (fun a => fdiv a (fsum triangle_area_list)) triangle_area_list.

(** A one-triangle mesh as the loader returns it, and a chooser and draws
    for it. *)
Definition unit_mesh : list (triangle R * vec3 R) :=
  [(unit_triangle, mk3 0 0 1)].

Definition choice_first : chooser (F := R) :=
  fun _ size _ => Ok (repeat 0%nat size).

Definition centre_draw : nat -> R * R := fun _ => (/ 4, / 4).

End MoreVocabulary.

Section VertexOrder.

(** The same triangle with its vertices listed from [v1] on, and with its
    last two vertices exchanged. *)
Definition rotate_vertices (t : triangle R) : triangle R :=
  mkT (v1 t) (v2 t) (v0 t).

Definition swap_vertices (t : triangle R) : triangle R :=
  mkT (v0 t) (v2 t) (v1 t).

End VertexOrder.

Section SparseCandidates.

Local Open Scope R_scope.


End SparseCandidates.

Section MoreFloatVocabulary.

(** The specification-level view of a float that is NaN or has its sign
    bit clear. *)
Definition SF_nonneg (x : SpecFloat.spec_float) : bool :=
  match x with
  | SpecFloat.S754_zero false | SpecFloat.S754_infinity false
  | SpecFloat.S754_nan | SpecFloat.S754_finite false _ _ => true
  | _ => false
  end.

Definition NaN (x : PrimFloat.float) : Prop := PrimFloat.is_nan x = true.

(** The area computed for one triangle, in binary64. *)
Definition area_float (t : triangle PrimFloat.float) : PrimFloat.float :=
  PrimFloat.mul
    (PrimFloat.sqrt (sum_sq (cross (vsub (v1 t) (v0 t)) (vsub (v2 t) (v0 t)))))
    FloatLit.half.

End MoreFloatVocabulary.

(** ** The shape of a loop state *)

Section ShapeVocabulary.

Local Open Scope R_scope.








(** Two candidates at the same place, and the state the loop starts in on
    them for a surface area of 1 and a target of 1 point. *)
Definition twin_points : list point := [origin; origin].

Definition twin_points_start : state :=
  initial_state twin_points
    (map (current_total_weight twin_points (rmax 1 1) (seq 0 2)) (seq 0 2)).

End ShapeVocabulary.

(** ** Binary64 values as real numbers *)

Section FloatValues.

Local Open Scope R_scope.

(** The real number a finite float stands for. *)
Definition SF2R (s : SpecFloat.spec_float) : option R :=
  match s with
  | SpecFloat.S754_zero _ => Some 0
  | SpecFloat.S754_finite sg m e =>
      Some ((if sg then -1 else 1) * IZR (Zpos m) * powerRZ 2 e)
  | _ => None
  end.

Definition float_real (x : PrimFloat.float) : option R :=
  SF2R (FloatOps.Prim2SF x).

End FloatValues.

(** Floats on which rounding shows: the float next above [.5], that is
    [.5 + 2^-53]; [2^53 + 2] and [3 * 2^53 + 4]; and [2^600], whose square
    overflows. *)
Module FloatCases.
Import PrimFloat.
Definition above_half : float := 0x1.0000000000001p-1%float.
Definition wide : float := 0x1.0000000000001p+53%float.
Definition wider : float := 0x1.8000000000001p+54%float.
Definition two : float := 2%float.
Definition three : float := 3%float.
Definition huge : float := 0x1p+600%float.
End FloatCases.

Section RoundingCases.

Local Open Scope R_scope.

(** Three points on one line: [v1 = v0 + d] and [v2 = v0 + 3 d] for
    [d = (2^53 + 1, 1, 0)].  Every coordinate is a binary64 number. *)
Definition needle : triangle R :=
  mkT (mk3 1 0 0)
      (mk3 9007199254740994 1 0)
      (mk3 27021597764222980 3 0).

Definition needle_float : triangle PrimFloat.float :=
  mkT (mk3 PrimFloat.one PrimFloat.zero PrimFloat.zero)
      (mk3 FloatCases.wide PrimFloat.one PrimFloat.zero)
      (mk3 FloatCases.wider FloatCases.three PrimFloat.zero).

(** A triangle whose last two vertices coincide, far from the origin. *)
Definition far_float : triangle PrimFloat.float :=
  mkT (mk3 PrimFloat.zero PrimFloat.zero PrimFloat.zero)
      (mk3 FloatCases.huge FloatCases.huge PrimFloat.zero)
      (mk3 FloatCases.huge FloatCases.huge PrimFloat.zero).

(** A draw just above the diagonal of the unit square. *)
Definition diagonal_draw : PrimFloat.float * PrimFloat.float :=
  (FloatLit.half, FloatCases.above_half).

End RoundingCases.

(** ** Python lists, sets and sorting: basic facts *)

Section ListFacts.

Lemma index_ok {A : Type} (l : list A) (i : nat) (a : A) :
  nth_error l i = Some a -> index l i = Ok a.
Proof. unfold index. intros ->. reflexivity. Qed.

Lemma mapM_ok {A B : Type} (f : A -> result B) (g : A -> B) (l : list A) :
  (forall a, In a l -> f a = Ok (g a)) -> mapM f l = Ok (map g l).
Proof.
  induction l as [|a l IH]; intros Hf.
  - reflexivity.
  - cbn. rewrite (Hf a (or_introl eq_refl)). cbn.
    rewrite IH by (intros b Hb; apply Hf; right; exact Hb).
    reflexivity.
Qed.

Lemma pop_snoc {A : Type} (l : list A) (x : A) : pop (l ++ [x]) = Ok (x, l).
Proof.
  unfold pop. rewrite rev_app_distr. cbn. rewrite rev_involutive.
  reflexivity.
Qed.

Lemma nonempty_snoc {A : Type} (l : list A) :
  l <> [] -> exists l' x, l = l' ++ [x].
Proof.
  intros Hne. destruct (exists_last Hne) as (l' & x & E).
  exists l', x. exact E.
Qed.

Lemma mem_In (i : nat) (s : list nat) : mem i s = true <-> In i s.
Proof.
  unfold mem. rewrite existsb_exists. split.
  - intros (j & Hj & E). apply Nat.eqb_eq in E. subst. exact Hj.
  - intros Hi. exists i. split; [exact Hi | apply Nat.eqb_refl].
Qed.

Lemma mem_false (i : nat) (s : list nat) : mem i s = false <-> ~ In i s.
Proof.
  rewrite <- mem_In. destruct (mem i s); split; intros; try discriminate;
    auto. exfalso. auto.
Qed.

Lemma set_remove_In (i : nat) (s : list nat) :
  In i s -> set_remove i s = Ok (drop i s).
Proof.
  intros Hi. unfold set_remove. apply mem_In in Hi. rewrite Hi. reflexivity.
Qed.

Lemma In_drop (i j : nat) (s : list nat) :
  In j (drop i s) <-> In j s /\ j <> i.
Proof.
  unfold drop. rewrite filter_In, negb_true_iff, Nat.eqb_neq. tauto.
Qed.

Lemma drop_absent (i : nat) (s : list nat) : ~ In i s -> drop i s = s.
Proof.
  induction s as [|j s IH]; intros Hni.
  - reflexivity.
  - cbn. destruct (Nat.eqb_spec j i) as [E | N].
    + subst. exfalso. apply Hni. left. reflexivity.
    + cbn. f_equal. apply IH. intros Hi. apply Hni. right. exact Hi.
Qed.

Lemma length_drop (i : nat) (s : list nat) :
  NoDup s -> In i s -> S (length (drop i s)) = length s.
Proof.
  induction 1 as [|j s Hj Hnd IH]; intros Hi.
  - contradiction.
  - cbn. destruct (Nat.eqb_spec j i) as [E | N].
    + subst. cbn. fold (drop i s). rewrite (drop_absent i s Hj). reflexivity.
    + cbn. fold (drop i s). f_equal. apply IH.
      destruct Hi as [E | Hi]; [contradiction | exact Hi].
Qed.

Lemma NoDup_drop (i : nat) (s : list nat) : NoDup s -> NoDup (drop i s).
Proof. apply NoDup_filter. Qed.

Lemma nth_error_combine_seq {A : Type} (l : list A) (s i : nat) :
  nth_error (combine (seq s (length l)) l) i
  = option_map (fun a => (s + i, a)) (nth_error l i).
Proof.
  revert s i. induction l as [|a l IH]; intros s [|i]; cbn; try reflexivity.
  - rewrite Nat.add_0_r. reflexivity.
  - rewrite IH. rewrite Nat.add_succ_r. reflexivity.
Qed.

Lemma nth_error_enumerate {A : Type} (l : list A) (i : nat) :
  nth_error (enumerate l) i = option_map (fun a => (i, a)) (nth_error l i).
Proof. apply nth_error_combine_seq. Qed.

Lemma In_enumerate {A : Type} (l : list A) (i : nat) (a : A) :
  In (i, a) (enumerate l) <-> nth_error l i = Some a.
Proof.
  split.
  - intros Hin. apply In_nth_error in Hin. destruct Hin as (n & Hn).
    rewrite nth_error_enumerate in Hn.
    destruct (nth_error l n) as [b|] eqn:E; cbn in Hn; [|discriminate].
    injection Hn as <- <-. exact E.
  - intros Hn. apply (nth_error_In _ i).
    rewrite nth_error_enumerate, Hn. reflexivity.
Qed.

Lemma map_fst_enumerate {A : Type} (l : list A) :
  map fst (enumerate l) = seq 0 (length l).
Proof.
  unfold enumerate. generalize 0.
  induction l as [|a l IH]; intros s; cbn; [reflexivity|].
  rewrite IH. reflexivity.
Qed.

(** Insertion and sorting. *)

Variable A : Type.
Variable ltb : A -> A -> bool.

Hypothesis ltb_asym : forall a b, ltb a b = true -> ltb b a = false.
Hypothesis le_of_trans :
  forall a b c, le_of ltb a b -> le_of ltb b c -> le_of ltb a c.

Lemma insert_perm (x : A) (l : list A) : Permutation (insert ltb x l) (x :: l).
Proof.
  induction l as [|y l IH]; cbn.
  - apply Permutation_refl.
  - destruct (ltb x y).
    + apply Permutation_refl.
    + eapply Permutation_trans; [apply perm_skip, IH | apply perm_swap].
Qed.

Lemma sorted_acc_perm (l acc : list A) :
  Permutation (fold_left (fun acc x => insert ltb x acc) l acc) (l ++ acc).
Proof.
  revert acc. induction l as [|x l IH]; intros acc; cbn.
  - apply Permutation_refl.
  - eapply Permutation_trans; [apply IH|].
    eapply Permutation_trans;
      [apply Permutation_app_head, insert_perm | ].
    apply Permutation_sym, Permutation_middle.
Qed.

Lemma sorted_perm (l : list A) : Permutation (sorted ltb l) l.
Proof.
  unfold sorted. eapply Permutation_trans; [apply sorted_acc_perm|].
  rewrite app_nil_r. apply Permutation_refl.
Qed.

Lemma insert_sorted (x : A) (l : list A) :
  StronglySorted (le_of ltb) l -> StronglySorted (le_of ltb) (insert ltb x l).
Proof.
  induction 1 as [|y l Hs IH Hall]; cbn.
  - constructor; constructor.
  - destruct (ltb x y) eqn:E.
    + constructor.
      * constructor; assumption.
      * constructor.
        -- apply ltb_asym. exact E.
        -- eapply Forall_impl; [|exact Hall].
           intros z Hz. eapply le_of_trans; [|exact Hz].
           apply ltb_asym. exact E.
    + constructor.
      * exact IH.
      * eapply Permutation_Forall;
          [apply Permutation_sym, insert_perm|].
        constructor; [exact E | exact Hall].
Qed.

Lemma sorted_acc_sorted (l acc : list A) :
  StronglySorted (le_of ltb) acc ->
  StronglySorted (le_of ltb) (fold_left (fun acc x => insert ltb x acc) l acc).
Proof.
  revert acc. induction l as [|x l IH]; intros acc Hs; cbn.
  - exact Hs.
  - apply IH, insert_sorted, Hs.
Qed.

Lemma sorted_sorted (l : list A) : StronglySorted (le_of ltb) (sorted ltb l).
Proof. apply sorted_acc_sorted. constructor. Qed.

Lemma insert_last (x : A) (l : list A) :
  Forall (fun y => ltb x y = false) l -> insert ltb x l = l ++ [x].
Proof.
  induction 1 as [|y l Hy _ IH]; cbn.
  - reflexivity.
  - rewrite Hy, IH. reflexivity.
Qed.

Lemma sorted_acc_id (l acc : list A) :
  StronglySorted (le_of ltb) (acc ++ l) ->
  fold_left (fun acc x => insert ltb x acc) l acc = acc ++ l.
Proof.
  revert acc. induction l as [|x l IH]; intros acc Hs; cbn.
  - rewrite app_nil_r. reflexivity.
  - assert (Hx : Forall (fun y => ltb x y = false) acc).
    { clear IH. induction acc as [|a acc IHa]; [constructor|].
      cbn in Hs. inversion Hs as [|? ? Hs' Hall]; subst.
      constructor.
      - rewrite Forall_forall in Hall. apply Hall.
        apply in_or_app. right. left. reflexivity.
      - apply IHa. exact Hs'. }
    rewrite (insert_last x acc Hx).
    rewrite IH; rewrite <- app_assoc; [reflexivity | exact Hs].
Qed.

Lemma sorted_id (l : list A) : StronglySorted (le_of ltb) l -> sorted ltb l = l.
Proof.
  intros Hs. unfold sorted. apply (sorted_acc_id l []). exact Hs.
Qed.

Lemma sorted_snoc_max (l : list A) (x : A) :
  StronglySorted (le_of ltb) (l ++ [x]) -> Forall (fun y => le_of ltb y x) l.
Proof.
  induction l as [|a l IH]; cbn; intros Hs.
  - constructor.
  - inversion Hs as [|? ? Hs' Hall]; subst. constructor.
    + rewrite Forall_forall in Hall. apply Hall.
      apply in_or_app. right. left. reflexivity.
    + apply IH. exact Hs'.
Qed.

End ListFacts.

(** * Properties *)

(** ** Geometry primitives *)

Section MeshAreaReal.

Local Open Scope R_scope.

Lemma mesh_area_map (tl : list (triangle R)) :
  mesh_area tl =
  map (fun t => sqrt (sum_sq (cross (vsub (v1 t) (v0 t))
                                    (vsub (v2 t) (v0 t)))) * / 2) tl.
Proof.
  unfold mesh_area. rewrite !map_map. reflexivity.
Qed.

Lemma sum_sq_dot (n : vec3 R) : sum_sq n = dot n n.
Proof. reflexivity. Qed.

(** Lagrange's identity: the squared norm of the cross product is what it
    is for the parallelogram spanned by [a] and [b]. *)
Lemma cross_lagrange (a b : vec3 R) :
  dot (cross a b) (cross a b) = dot a a * dot b b - dot a b * dot a b.
Proof.
  unfold dot, cross. cbn. ring.
Qed.

Lemma collinear_cross_zero (t : triangle R) :
  collinear t ->
  sum_sq (cross (vsub (v1 t) (v0 t)) (vsub (v2 t) (v0 t))) = 0.
Proof.
  intros (d & s1 & s2 & E1 & E2).
  rewrite E1, E2. unfold sum_sq, cross, vsub. cbn. ring.
Qed.

(** Over the reals [mesh_area] returns one value per triangle, in the
    order of the triangles; the value of a triangle is half the norm of
    the cross product of its two edge vectors at [v0], it is non-negative,
    and it is exactly 0 when the three vertices are collinear. *)
Lemma mesh_area_cross_formula (tl : list (triangle R)) :
  length (mesh_area tl) = length tl /\
  forall (i : nat) (t : triangle R),
    nth_error tl i = Some t ->
    exists a : R,
      nth_error (mesh_area tl) i = Some a /\
      a = / 2 * vnorm (cross (vsub (v1 t) (v0 t)) (vsub (v2 t) (v0 t))) /\
      0 <= a /\
      (collinear t -> a = 0).
Proof.
  split.
  - rewrite mesh_area_map. apply length_map.
  - intros i t Hi.
    rewrite mesh_area_map.
    eexists. split.
    + rewrite nth_error_map, Hi. reflexivity.
    + split; [|split].
      * unfold vnorm. rewrite <- sum_sq_dot. ring.
      * pose proof (sqrt_pos (sum_sq (cross (vsub (v1 t) (v0 t))
                                            (vsub (v2 t) (v0 t))))).
        lra.
      * intros Hc. rewrite (collinear_cross_zero t Hc), sqrt_0. ring.
Qed.

End MeshAreaReal.

Section PointPickingReal.

Local Open Scope R_scope.

Lemma Rgtb_true (x y : R) : Rgtb x y = true <-> x > y.
Proof.
  unfold Rgtb. destruct (Rgt_dec x y); split; intros; auto; discriminate.
Qed.

Lemma Rgtb_false (x y : R) : Rgtb x y = false <-> ~ x > y.
Proof.
  unfold Rgtb. destruct (Rgt_dec x y); split; intros; auto;
    try discriminate; contradiction.
Qed.

Lemma reflect_real (u v : R) : reflect (u, v) = (1 - v, 1 - u).
Proof.
  unfold reflect. cbn. f_equal; ring.
Qed.

Lemma fold_square_gt (u v : R) :
  u + v > 1 -> fold_square (u, v) = (1 - v, 1 - u).
Proof.
  intros Hgt. unfold fold_square. cbn [fst snd].
  replace (fgtb (fadd u v) lit1) with true.
  - apply reflect_real.
  - symmetry. apply Rgtb_true. exact Hgt.
Qed.

Lemma fold_square_le (u v : R) :
  ~ u + v > 1 -> fold_square (u, v) = (u, v).
Proof.
  intros Hle. unfold fold_square. cbn [fst snd].
  replace (fgtb (fadd u v) lit1) with false.
  - reflexivity.
  - symmetry. apply Rgtb_false. exact Hle.
Qed.

Lemma map_to_triangle_real (t : triangle R) (u v : R) :
  map_to_triangle t (u, v) = barycentric_point t u v.
Proof.
  unfold map_to_triangle, barycentric_point, vadd, vsub. cbn.
  f_equal; ring.
Qed.

Lemma barycentric_in_triangle (t : triangle R) (u v : R) :
  0 <= u -> 0 <= v -> u + v <= 1 -> in_triangle t (barycentric_point t u v).
Proof.
  intros Hu Hv Huv.
  exists (1 - u - v), u, v.
  repeat split; try lra.
  unfold barycentric_point. f_equal; ring.
Qed.

(** C6 (in exact arithmetic). Over the reals, with one draw [(u, v)] of
    the unit square per triangle, the point picked for a triangle is [v0 + u' (v1 - v0) + v' (v2 - v0)] where
    [(u', v')] is [(1 - v, 1 - u)] exactly when [u + v > 1] and [(u, v)]
    otherwise; [u'] and [v'] lie in [0, 1], their sum is at most 1, and
    the point belongs to the triangle. *)
Theorem triangle_point_picking_fold
    (tl : list (triangle R)) (X : nat -> R * R) :
  (forall i : nat, (i < length tl)%nat -> in_unit_square (X i)) ->
  length (triangle_point_picking tl X) = length tl /\
  forall (i : nat) (t : triangle R) (u v : R),
    nth_error tl i = Some t ->
    X i = (u, v) ->
    exists u' v' : R,
      (u + v > 1 -> u' = 1 - v /\ v' = 1 - u) /\
      (~ u + v > 1 -> u' = u /\ v' = v) /\
      nth_error (triangle_point_picking tl X) i
        = Some (barycentric_point t u' v') /\
      0 <= u' <= 1 /\ 0 <= v' <= 1 /\ u' + v' <= 1 /\
      in_triangle t (barycentric_point t u' v').
Proof.
  intros Hsq. split.
  - unfold triangle_point_picking, enumerate.
    rewrite length_map, length_combine, length_seq. apply Nat.min_id.
  - intros i t u v Ht Hx.
    assert (Huv : in_unit_square (u, v)).
    { rewrite <- Hx. apply Hsq. apply nth_error_Some. congruence. }
    destruct Huv as [Hu Hv]. cbn in Hu, Hv.
    assert (Hnth : nth_error (triangle_point_picking tl X) i
                   = Some (map_to_triangle t (fold_square (u, v)))).
    { unfold triangle_point_picking.
      rewrite nth_error_map, nth_error_enumerate, Ht. cbn. rewrite Hx.
      reflexivity. }
    destruct (Rgt_dec (u + v) 1) as [Hgt | Hle].
    + exists (1 - v), (1 - u).
      rewrite (fold_square_gt u v Hgt), map_to_triangle_real in Hnth.
      repeat split; try lra; try assumption.
      apply barycentric_in_triangle; lra.
    + exists u, v.
      rewrite (fold_square_le u v Hle), map_to_triangle_real in Hnth.
      repeat split; try lra; try assumption.
      apply barycentric_in_triangle; lra.
Qed.

Lemma triangle_point_picking_fold_witness :
  exists u' v' : R,
    (3 / 4 + 3 / 4 > 1 -> u' = 1 - 3 / 4 /\ v' = 1 - 3 / 4) /\
    (~ 3 / 4 + 3 / 4 > 1 -> u' = 3 / 4 /\ v' = 3 / 4) /\
    nth_error (triangle_point_picking [unit_triangle]
                                      (fun _ => (3 / 4, 3 / 4))) 0
      = Some (barycentric_point unit_triangle u' v') /\
    0 <= u' <= 1 /\ 0 <= v' <= 1 /\ u' + v' <= 1 /\
    in_triangle unit_triangle (barycentric_point unit_triangle u' v').
Proof.
  refine (proj2 (triangle_point_picking_fold [unit_triangle]
                   (fun _ => (3 / 4, 3 / 4)) _)
                0%nat unit_triangle (3 / 4) (3 / 4) _ _).
  - intros i _. unfold in_unit_square. cbn. lra.
  - reflexivity.
  - reflexivity.
Defined.

End PointPickingReal.

(** ** Non-finite coordinates and zero areas, in binary64 *)

Section FloatRuns.

(** The functions compute: the area of the unit right triangle, and the
    point picked in it for the draw [(0.75, 0.75)], which is folded to
    [(0.25, 0.25)]. *)
Example mesh_area_unit_triangle :
  mesh_area [unit_triangle_float] = [FloatLit.half].
Proof. vm_compute. reflexivity. Qed.

Example point_picking_unit_triangle :
  triangle_point_picking [unit_triangle_float]
    (fun _ => (FloatLit.three_quarters, FloatLit.three_quarters))
  = [mk3 FloatLit.quarter FloatLit.quarter PrimFloat.zero].
Proof. vm_compute. reflexivity. Qed.

Example sampling_unit_triangle :
  uniform_sample_mesh choice_checked [unit_triangle_float]
    (mesh_area [unit_triangle_float]) 2
    (fun _ => (FloatLit.quarter, FloatLit.half))
  = Ok [mk3 FloatLit.quarter FloatLit.half PrimFloat.zero;
        mk3 FloatLit.quarter FloatLit.half PrimFloat.zero].
Proof. vm_compute. reflexivity. Qed.

End FloatRuns.

Section MeshAreaFloat.

Import SpecFloat FloatAxioms.

Lemma SFcompare_finite_refl (s : bool) (m : positive) (e : Z) :
  SFcompare (S754_finite s m e) (S754_finite s m e) = Some Eq.
Proof.
  cbn. destruct s; rewrite Z.compare_refl.
  - rewrite Pos.compare_cont_refl. reflexivity.
  - rewrite Pos.compare_cont_refl. reflexivity.
Qed.

Lemma nonfinite_spec (x : PrimFloat.float) :
  nonfinite x = SF_nonfinite (FloatOps.Prim2SF x).
Proof.
  unfold nonfinite, PrimFloat.is_finite, PrimFloat.is_nan,
    PrimFloat.is_infinity.
  rewrite !eqb_spec, abs_spec.
  replace (FloatOps.Prim2SF PrimFloat.infinity) with (S754_infinity false)
    by (vm_compute; reflexivity).
  destruct (FloatOps.Prim2SF x) as [s | s | | s m e];
    try (destruct s; reflexivity); try reflexivity.
  unfold SFeqb. rewrite SFcompare_finite_refl.
  destruct s; reflexivity.
Qed.

(* Every arithmetic operation of [mesh_area] maps a non-finite operand to
   a non-finite result. *)
Ltac nf_cases x y :=
  unfold NF; rewrite !nonfinite_spec;
  destruct (FloatOps.Prim2SF x) as [[|] | [|] | | [|] ? ?];
  destruct (FloatOps.Prim2SF y) as [[|] | [|] | | [|] ? ?];
  cbn; intros; try reflexivity; try discriminate.

Lemma NF_add_l (x y : PrimFloat.float) : NF x -> NF (PrimFloat.add x y).
Proof.
  unfold NF at 2. rewrite nonfinite_spec, add_spec. unfold SF64add.
  nf_cases x y.
Qed.

Lemma NF_add_r (x y : PrimFloat.float) : NF y -> NF (PrimFloat.add x y).
Proof.
  unfold NF at 2. rewrite nonfinite_spec, add_spec. unfold SF64add.
  nf_cases x y.
Qed.

Lemma NF_sub_l (x y : PrimFloat.float) : NF x -> NF (PrimFloat.sub x y).
Proof.
  unfold NF at 2. rewrite nonfinite_spec, sub_spec. unfold SF64sub.
  nf_cases x y.
Qed.

Lemma NF_sub_r (x y : PrimFloat.float) : NF y -> NF (PrimFloat.sub x y).
Proof.
  unfold NF at 2. rewrite nonfinite_spec, sub_spec. unfold SF64sub.
  nf_cases x y.
Qed.

Lemma NF_mul_l (x y : PrimFloat.float) : NF x -> NF (PrimFloat.mul x y).
Proof.
  unfold NF at 2. rewrite nonfinite_spec, mul_spec. unfold SF64mul.
  nf_cases x y.
Qed.

Lemma NF_mul_r (x y : PrimFloat.float) : NF y -> NF (PrimFloat.mul x y).
Proof.
  unfold NF at 2. rewrite nonfinite_spec, mul_spec. unfold SF64mul.
  nf_cases x y.
Qed.

Lemma NF_sqrt (x : PrimFloat.float) : NF x -> NF (PrimFloat.sqrt x).
Proof.
  unfold NF. rewrite !nonfinite_spec, sqrt_spec. unfold SF64sqrt.
  destruct (FloatOps.Prim2SF x) as [[|] | [|] | | [|] ? ?];
    cbn; intros; try reflexivity; try discriminate.
Qed.

Create HintDb nonfinite_db.
#[local] Hint Resolve NF_add_l NF_add_r NF_sub_l NF_sub_r NF_mul_l NF_mul_r
  NF_sqrt : nonfinite_db.

(** The area computed for one triangle. *)
Lemma mesh_area_float_map (tl : list (triangle PrimFloat.float)) :
  mesh_area tl =
  map (fun t => PrimFloat.mul
                  (PrimFloat.sqrt
                     (sum_sq (cross (vsub (v1 t) (v0 t))
                                    (vsub (v2 t) (v0 t)))))
                  FloatLit.half) tl.
Proof.
  unfold mesh_area. rewrite !map_map. reflexivity.
Qed.

Lemma nonfinite_coordinate_area (t : triangle PrimFloat.float) :
  Exists NF (coordinates t) ->
  NF (PrimFloat.mul
        (PrimFloat.sqrt
           (sum_sq (cross (vsub (v1 t) (v0 t)) (vsub (v2 t) (v0 t)))))
        FloatLit.half).
Proof.
  destruct t as [[a0 b0 c0] [a1 b1 c1] [a2 b2 c2]].
  unfold coordinates, sum_sq, cross, vsub. cbn.
  intros Hex.
  repeat (apply Exists_cons in Hex; destruct Hex as [Hex | Hex]);
    try (apply Exists_nil in Hex; contradiction);
    apply NF_mul_l, NF_sqrt; eauto 8 with nonfinite_db.
Qed.

(** C9 (as the code behaves). [mesh_area] makes no finiteness check: for
    a triangle with a NaN or infinite coordinate it returns, at the place
    of that triangle, an area that is itself NaN or infinite. *)
Theorem mesh_area_propagates_nonfinite
    (tl : list (triangle PrimFloat.float)) (i : nat)
    (t : triangle PrimFloat.float) :
  nth_error tl i = Some t ->
  Exists NF (coordinates t) ->
  length (mesh_area tl) = length tl /\
  exists a : PrimFloat.float,
    nth_error (mesh_area tl) i = Some a /\ nonfinite a = true.
Proof.
  intros Hi Hnf. rewrite mesh_area_float_map. split.
  - apply length_map.
  - eexists. split.
    + rewrite nth_error_map, Hi. reflexivity.
    + apply nonfinite_coordinate_area. exact Hnf.
Qed.

Lemma mesh_area_propagates_nonfinite_witness :
  length (mesh_area [nan_triangle]) = 1%nat /\
  exists a : PrimFloat.float,
    nth_error (mesh_area [nan_triangle]) 0 = Some a /\ nonfinite a = true.
Proof.
  apply (mesh_area_propagates_nonfinite [nan_triangle] 0%nat nan_triangle).
  - reflexivity.
  - apply Exists_cons_hd. vm_compute. reflexivity.
Defined.

(** C9, counterexample: on a triangle with a NaN coordinate [mesh_area]
    raises no [GeometryError]; it returns, and the area it returns is
    NaN. *)
Lemma mesh_area_returns_nan :
  mesh_area [nan_triangle] = [PrimFloat.nan] /\
  PrimFloat.is_nan PrimFloat.nan = true.
Proof.
  split; vm_compute; reflexivity.
Qed.

End MeshAreaFloat.

Section ZeroAreaFloat.

Lemma fsum_zeros (al : list PrimFloat.float) :
  Forall (fun a => a = PrimFloat.zero) al -> fsum al = PrimFloat.zero.
Proof.
  unfold fsum. induction 1 as [|a al Ha _ IH].
  - reflexivity.
  - subst a. cbn. exact IH.
Qed.

Lemma normalized_zeros (al : list PrimFloat.float) :
  Forall (fun a => a = PrimFloat.zero) al ->
  map (fun a => fdiv a (fsum al)) al = repeat PrimFloat.nan (length al).
Proof.
  intros Hz. rewrite (fsum_zeros al Hz).
  induction Hz as [|a al Ha _ IH].
  - reflexivity.
  - subst a. cbn [map length repeat]. rewrite IH. reflexivity.
Qed.

Lemma take_ids_in_range {A : Type} (l : list A) (ids : list nat) :
  Forall (fun i => (i < length l)%nat) ids ->
  exists picked, take_ids l ids = Ok picked /\ length picked = length ids.
Proof.
  induction 1 as [|i ids Hi _ (picked & Hp & Hl)].
  - exists []. split; reflexivity.
  - cbn. unfold index.
    destruct (nth_error l i) as [a|] eqn:Ha.
    + exists (a :: picked). cbn. rewrite Hp. cbn. split; congruence.
    + apply nth_error_None in Ha. lia.
Qed.

(** C8 (as the code behaves). When every area is 0, so that the total is 0,
    [uniform_sample_mesh] checks nothing: every probability it hands to
    the index chooser is the NaN [0 / 0], and the outcome is the
    chooser's.  An exception of the chooser is passed on unchanged; when
    the chooser returns indices of triangles, points are returned. *)
Theorem uniform_sample_mesh_zero_area
    (choice : chooser (F := PrimFloat.float))
    (tl : list (triangle PrimFloat.float)) (al : list PrimFloat.float)
    (k : nat) (X : nat -> PrimFloat.float * PrimFloat.float) :
  Forall (fun a => a = PrimFloat.zero) al ->
  let p := repeat PrimFloat.nan (length al) in
  (forall e : exn,
      choice (length tl) k p = Raise e ->
      uniform_sample_mesh choice tl al k X = Raise e) /\
  (forall ids : list nat,
      choice (length tl) k p = Ok ids ->
      Forall (fun i => (i < length tl)%nat) ids ->
      exists picked,
        take_ids tl ids = Ok picked /\
        uniform_sample_mesh choice tl al k X
          = Ok (triangle_point_picking picked X)).
Proof.
  intros Hz p. unfold uniform_sample_mesh.
  rewrite (normalized_zeros al Hz). fold p. split.
  - intros e He. rewrite He. reflexivity.
  - intros ids Hids Hr. rewrite Hids. cbn.
    destruct (take_ids_in_range tl ids Hr) as (picked & Hp & _).
    exists picked. rewrite Hp. split; reflexivity.
Qed.

Lemma uniform_sample_mesh_zero_area_witness :
  uniform_sample_mesh choice_checked [point_triangle] [PrimFloat.zero] 2
                      (fun _ => (FloatLit.half, FloatLit.half))
    = Raise ValueError /\
  exists picked,
    take_ids [point_triangle] [0%nat; 0%nat] = Ok picked /\
    uniform_sample_mesh choice_unchecked [point_triangle] [PrimFloat.zero]
                        2 (fun _ => (FloatLit.half, FloatLit.half))
      = Ok (triangle_point_picking picked
                                   (fun _ => (FloatLit.half, FloatLit.half))).
Proof.
  split.
  - apply (proj1 (uniform_sample_mesh_zero_area choice_checked
                    [point_triangle] [PrimFloat.zero] 2
                    (fun _ => (FloatLit.half, FloatLit.half))
                    ltac:(repeat constructor)) ValueError).
    reflexivity.
  - apply (proj2 (uniform_sample_mesh_zero_area choice_unchecked
                    [point_triangle] [PrimFloat.zero] 2
                    (fun _ => (FloatLit.half, FloatLit.half))
                    ltac:(repeat constructor)) [0%nat; 0%nat]).
    + reflexivity.
    + repeat constructor.
Defined.

(** C8, counterexample: a mesh made of one zero-area triangle.  Its area
    vector is [[0]].  With a chooser that rejects NaN probabilities the
    call ends in the chooser's [ValueError], which is not an
    [InvalidDistributionError]; with a chooser that does not validate, two
    points are returned. *)
Lemma zero_area_mesh_no_invalid_distribution :
  mesh_area [point_triangle] = [PrimFloat.zero] /\
  uniform_sample_mesh choice_checked [point_triangle]
    (mesh_area [point_triangle]) 2 (fun _ => (FloatLit.half, FloatLit.half))
    = Raise ValueError /\
  uniform_sample_mesh choice_checked [point_triangle]
    (mesh_area [point_triangle]) 2 (fun _ => (FloatLit.half, FloatLit.half))
    <> Raise InvalidDistributionError /\
  uniform_sample_mesh choice_unchecked [point_triangle]
    (mesh_area [point_triangle]) 2 (fun _ => (FloatLit.half, FloatLit.half))
    = Ok [mk3 PrimFloat.zero PrimFloat.zero PrimFloat.zero;
          mk3 PrimFloat.zero PrimFloat.zero PrimFloat.zero].
Proof.
  assert (E : uniform_sample_mesh choice_checked [point_triangle]
                (mesh_area [point_triangle]) 2
                (fun _ => (FloatLit.half, FloatLit.half))
              = Raise ValueError) by (vm_compute; reflexivity).
  split; [vm_compute; reflexivity|].
  split; [exact E|].
  split; [rewrite E; discriminate | vm_compute; reflexivity].
Qed.

End ZeroAreaFloat.

(** ** The elimination engine: distances, weights and the ball query *)

Section EliminationFacts.

Local Open Scope R_scope.

Lemma Rleb_true (x y : R) : Rleb x y = true <-> x <= y.
Proof.
  unfold Rleb. destruct (Rle_dec x y); split; intros; auto; discriminate.
Qed.

Lemma Rltb_true (x y : R) : Rltb x y = true <-> x < y.
Proof.
  unfold Rltb. destruct (Rlt_dec x y); split; intros; auto; discriminate.
Qed.

Lemma Rltb_false (x y : R) : Rltb x y = false <-> y <= x.
Proof.
  unfold Rltb. destruct (Rlt_dec x y); split; intros; auto;
    try discriminate; lra.
Qed.

Lemma euclidean_sym (a b : point) : euclidean a b = euclidean b a.
Proof.
  unfold euclidean. f_equal. ring.
Qed.

Lemma euclidean_refl (a : point) : euclidean a a = 0.
Proof.
  unfold euclidean.
  replace ((vx a - vx a) * (vx a - vx a) + (vy a - vy a) * (vy a - vy a)
           + (vz a - vz a) * (vz a - vz a)) with 0 by ring.
  apply sqrt_0.
Qed.

Lemma distance_sym (pts : list point) (i j : nat) :
  distance pts i j = distance pts j i.
Proof. apply euclidean_sym. Qed.

Lemma within_sym (pts : list point) (r : R) (i j : nat) :
  within pts r i j = within pts r j i.
Proof. unfold within. rewrite distance_sym. reflexivity. Qed.

Lemma rmax_nonneg (area : R) (k : nat) : 0 <= rmax area k.
Proof. apply sqrt_pos. Qed.

Lemma pair_weight_nonneg (d r : R) : 0 <= pair_weight d r.
Proof.
  unfold pair_weight.
  replace 8%nat with (2 * 4)%nat by reflexivity.
  rewrite pow_mult. apply pow_le. apply pow2_ge_0.
Qed.


Lemma filter_filter {A : Type} (f g : A -> bool) (l : list A) :
  filter f (filter g l) = filter (fun x => g x && f x) l.
Proof.
  induction l as [|a l IH]; cbn; [reflexivity|].
  destruct (g a); cbn; [destruct (f a)|]; rewrite IH; reflexivity.
Qed.

Lemma filter_combine_seq {A : Type} (f : A -> bool) (d : A) (l : list A)
    (s : nat) :
  map fst (filter (fun jp => f (snd jp)) (combine (seq s (length l)) l))
  = filter (fun j => f (nth (j - s) l d)) (seq s (length l)).
Proof.
  revert s. induction l as [|a l IH]; intros s; [reflexivity|].
  assert (Htail :
    filter (fun j => f (nth (j - s) (a :: l) d)) (seq (S s) (length l))
    = filter (fun j => f (nth (j - S s) l d)) (seq (S s) (length l))).
  { apply filter_ext_in. intros j Hj. apply in_seq in Hj.
    replace (j - s)%nat with (S (j - S s)) by lia. reflexivity. }
  change (seq s (length (a :: l))) with (s :: seq (S s) (length l)).
  cbn [combine filter snd].
  rewrite Htail, <- IH, Nat.sub_diag. cbn [nth].
  destruct (f a); reflexivity.
Qed.

(** The ball query returns, in increasing order, the indices of the points
    at distance at most [r]. *)
Lemma query_ball_point_filter (pts : list point) (x : point) (r : R) :
  query_ball_point pts x r
  = filter (fun j => Rleb (euclidean (pt pts j) x) r) (seq 0 (length pts)).
Proof.
  unfold query_ball_point, enumerate.
  rewrite (filter_combine_seq (fun p => Rleb (euclidean p x) r) origin).
  apply filter_ext. intros j. rewrite Nat.sub_0_r. reflexivity.
Qed.

Lemma In_query_ball_point (pts : list point) (r : R) (i j : nat) :
  In j (query_ball_point pts (pt pts i) r)
  <-> (j < length pts)%nat /\ distance pts i j <= r.
Proof.
  rewrite query_ball_point_filter, filter_In, in_seq, Rleb_true.
  unfold distance. rewrite (euclidean_sym (pt pts i)). split.
  - intros [[_ Hj] Hd]. split; [lia | exact Hd].
  - intros [Hj Hd]. split; [lia | exact Hd].
Qed.

(** The entries of the weight matrix. *)

Lemma pt_nth_error (pts : list point) (i : nat) :
  (i < length pts)%nat -> nth_error pts i = Some (pt pts i).
Proof. intros Hi. apply nth_error_nth'. exact Hi. Qed.

Lemma squareform_entry (pts : list point) (i j : nat) :
  (if (i <? j)%nat then euclidean (pt pts i) (pt pts j)
   else if (j <? i)%nat then euclidean (pt pts j) (pt pts i) else 0)
  = distance pts i j.
Proof.
  unfold distance.
  destruct (Nat.ltb_spec i j) as [Hlt | Hge]; [reflexivity|].
  destruct (Nat.ltb_spec j i) as [Hlt | Hge']; [apply euclidean_sym|].
  assert (i = j) by lia. subst. symmetry. apply euclidean_refl.
Qed.

Lemma get2_weight_matrix (pts : list point) (r : R) (i j : nat) :
  (i < length pts)%nat -> (j < length pts)%nat ->
  get2 (weight_matrix pts r) i j = Ok (pair_weight (distance pts i j) r).
Proof.
  intros Hi Hj. unfold get2, weight_matrix, squareform_pdist.
  rewrite !map_map.
  erewrite index_ok.
  2:{ rewrite nth_error_map, nth_error_enumerate, (pt_nth_error pts i Hi).
      reflexivity. }
  cbn [bind]. rewrite !map_map.
  erewrite index_ok.
  2:{ rewrite nth_error_map, nth_error_enumerate, (pt_nth_error pts j Hj).
      reflexivity. }
  cbn [fst snd]. rewrite squareform_entry. reflexivity.
Qed.

(** Sums. *)

Lemma fold_left_Rplus (l : list R) (a : R) :
  fold_left Rplus l a = a + Rsum l.
Proof.
  revert a. induction l as [|x l IH]; intros a; cbn [fold_left].
  - unfold Rsum. cbn. ring.
  - rewrite IH. unfold Rsum. cbn [fold_right]. ring.
Qed.

Lemma Rsum_cons (x : R) (l : list R) : Rsum (x :: l) = x + Rsum l.
Proof. reflexivity. Qed.

Lemma Rsum_filter_drop (g : nat -> R) (f : nat -> bool) (i : nat)
    (ids : list nat) :
  NoDup ids -> In i ids ->
  Rsum (map g (filter f (drop i ids)))
  = Rsum (map g (filter f ids)) - (if f i then g i else 0).
Proof.
  induction 1 as [|j ids Hj Hnd IH]; intros Hi; [contradiction|].
  cbn [drop filter]. fold (drop i ids).
  destruct (Nat.eqb_spec j i) as [E | N].
  - subst j. cbn [negb]. rewrite (drop_absent i ids Hj).
    destruct (f i); cbn [map]; rewrite ?Rsum_cons; ring.
  - cbn [negb filter].
    assert (Hi' : In i ids) by (destruct Hi; [contradiction | assumption]).
    specialize (IH Hi').
    destruct (f j); cbn [map]; rewrite ?Rsum_cons, IH; ring.
Qed.

Lemma current_total_weight_drop (pts : list point) (r : R) (ids : list nat)
    (i j : nat) :
  NoDup ids -> In i ids -> i <> j ->
  current_total_weight pts r (drop i ids) j
  = current_total_weight pts r ids j
    - (if within pts r i j then pair_weight (distance pts i j) r else 0).
Proof.
  intros Hnd Hi Hij. unfold current_total_weight.
  rewrite (Rsum_filter_drop _ _ i ids Hnd Hi).
  destruct (Nat.eqb_spec i j) as [E | _]; [contradiction|].
  cbn [negb andb]. rewrite (within_sym pts r j i), (distance_sym pts j i).
  reflexivity.
Qed.

(** The initial weights. *)
Lemma initial_weights_ok (pts : list point) (r : R) :
  initial_weights pts (weight_matrix pts r) r
  = Ok (map (current_total_weight pts r (seq 0 (length pts)))
            (seq 0 (length pts))).
Proof.
  unfold initial_weights. apply mapM_ok. intros i Hi.
  apply in_seq in Hi.
  assert (Hi' : (i < length pts)%nat) by lia.
  rewrite (index_ok pts i (pt pts i) (pt_nth_error pts i Hi')). cbn [bind].
  rewrite (mapM_ok _ (fun j => pair_weight (distance pts i j) r)).
  - cbn [bind]. f_equal. rewrite fold_left_Rplus.
    unfold current_total_weight.
    rewrite query_ball_point_filter, filter_filter.
    rewrite Rplus_0_l. do 2 f_equal.
    apply filter_ext. intros j. unfold within, distance.
    rewrite (euclidean_sym (pt pts j)), Nat.eqb_sym. apply andb_comm.
  - intros j Hj. apply filter_In in Hj. destruct Hj as [Hj _].
    apply In_query_ball_point in Hj. destruct Hj as [Hj _].
    apply get2_weight_matrix; assumption.
Qed.

End EliminationFacts.

(** ** The elimination engine: the heap order and one pass of the loop *)

Section EliminationStep.

Local Open Scope R_scope.

Lemma tuple_ltb_true (a b : R * nat) :
  tuple_ltb a b = true
  <-> fst a < fst b \/ (fst a = fst b /\ (snd a < snd b)%nat).
Proof.
  unfold tuple_ltb. destruct (Req_dec_T (fst a) (fst b)) as [E | N].
  - rewrite Nat.ltb_lt. split; [intros; right; split; assumption|].
    intros [Hlt | [_ Hlt]]; [lra | exact Hlt].
  - rewrite Rltb_true. split; [intros; left; assumption|].
    intros [Hlt | [E _]]; [exact Hlt | contradiction].
Qed.

Lemma tuple_le (a b : R * nat) :
  le_of tuple_ltb a b
  <-> fst a < fst b \/ (fst a = fst b /\ (snd a <= snd b)%nat).
Proof.
  unfold le_of, tuple_ltb.
  destruct (Req_dec_T (fst b) (fst a)) as [E | N].
  - rewrite Nat.ltb_ge. split; [intros; right; split; auto|].
    intros [Hlt | [_ Hle]]; [lra | exact Hle].
  - rewrite Rltb_false. split; [intros; left; lra|].
    intros [Hlt | [E _]]; [lra | congruence].
Qed.

Lemma tuple_ltb_asym (a b : R * nat) :
  tuple_ltb a b = true -> tuple_ltb b a = false.
Proof.
  intros Hab. apply tuple_ltb_true in Hab.
  change (le_of tuple_ltb a b). apply tuple_le.
  destruct Hab as [Hlt | [E Hlt]]; [left; exact Hlt | right; split; [exact E | lia]].
Qed.

Lemma tuple_le_trans (a b c : R * nat) :
  le_of tuple_ltb a b -> le_of tuple_ltb b c -> le_of tuple_ltb a c.
Proof.
  rewrite !tuple_le.
  intros [H1 | [E1 H1]] [H2 | [E2 H2]]; try (left; lra).
  right. split; [congruence | lia].
Qed.

Lemma nat_ltb_asym (a b : nat) : (a <? b)%nat = true -> (b <? a)%nat = false.
Proof. rewrite Nat.ltb_lt, Nat.ltb_ge. lia. Qed.

Lemma nat_le_of (a b : nat) : le_of Nat.ltb a b <-> (a <= b)%nat.
Proof. unfold le_of. apply Nat.ltb_ge. Qed.

Lemma nat_le_of_trans (a b c : nat) :
  le_of Nat.ltb a b -> le_of Nat.ltb b c -> le_of Nat.ltb a c.
Proof. rewrite !nat_le_of. lia. Qed.

(** Sorting a heap keeps its entries and puts them in the tuple order. *)
Lemma heap_sorted (h : list (R * nat)) :
  StronglySorted (le_of tuple_ltb) (sorted tuple_ltb h).
Proof. apply sorted_sorted; [apply tuple_ltb_asym | apply tuple_le_trans]. Qed.

Lemma heap_perm (h : list (R * nat)) : Permutation (sorted tuple_ltb h) h.
Proof. apply sorted_perm. Qed.

Lemma snd_decrement (pts : list point) (r : R) (i : nat) (wj : R * nat) :
  snd (decrement pts r i wj) = snd wj.
Proof. unfold decrement. destruct (within pts r i (snd wj)); reflexivity. Qed.

Lemma map_snd_decrement (pts : list point) (r : R) (i : nat)
    (h : list (R * nat)) :
  map snd (map (decrement pts r i) h) = map snd h.
Proof.
  rewrite map_map. apply map_ext. intros wj. apply snd_decrement.
Qed.

(** What the invariant says about the entry at the end of the heap. *)
Lemma Inv_last (pts : list point) (r : R) (st : state)
    (h : list (R * nat)) (w : R) (i : nat) :
  Inv pts r st -> heap st = h ++ [(w, i)] ->
  In i (id_set st) /\ (i < length pts)%nat /\
  ~ In i (map snd h) /\
  Permutation (map snd h) (drop i (id_set st)) /\
  Forall (fun wj => (snd wj < length pts)%nat /\ snd wj <> i) h.
Proof.
  intros HI Hh. destruct HI as [_ Hperm Hnd Hrange _].
  rewrite Hh, map_app in Hperm. cbn [map snd] in Hperm.
  assert (Hi : In i (id_set st)).
  { eapply Permutation_in; [exact Hperm|].
    apply in_or_app. right. left. reflexivity. }
  assert (Hnd' : NoDup (map snd h ++ [i])).
  { eapply Permutation_NoDup; [apply Permutation_sym, Hperm | exact Hnd]. }
  assert (Hni : ~ In i (map snd h)).
  { apply NoDup_remove_2 in Hnd'. rewrite app_nil_r in Hnd'. exact Hnd'. }
  rewrite Forall_forall in Hrange.
  split; [exact Hi|]. split; [apply Hrange, Hi|]. split; [exact Hni|].
  split.
  - apply NoDup_Permutation.
    + apply NoDup_remove_1 in Hnd'. rewrite app_nil_r in Hnd'. exact Hnd'.
    + apply NoDup_drop. exact Hnd.
    + intros x. rewrite In_drop. split.
      * intros Hx. split.
        -- eapply Permutation_in; [exact Hperm|].
           apply in_or_app. left. exact Hx.
        -- intros ->. contradiction.
      * intros [Hx Hne].
        apply (Permutation_in _ (Permutation_sym Hperm)) in Hx.
        apply in_app_or in Hx. destruct Hx as [Hx | [Hx | []]];
          [exact Hx | congruence].
  - apply Forall_forall. intros wj Hwj.
    assert (Hs : In (snd wj) (map snd h)) by (apply in_map; exact Hwj).
    split.
    + apply Hrange. eapply Permutation_in; [exact Hperm|].
      apply in_or_app. left. exact Hs.
    + intros E. apply Hni. rewrite <- E. exact Hs.
Qed.

(** One pass of the loop body on a state that satisfies the invariant: the
    last entry [(w, i)] of the heap is popped, [i] leaves [id_set], every
    other entry is decremented when its point is within the interaction
    radius of [i], and the heap is sorted again. *)
Lemma elimination_step_ok (pts : list point) (r : R) (st : state)
    (h : list (R * nat)) (w : R) (i : nat) :
  0 <= r -> Inv pts r st -> heap st = h ++ [(w, i)] ->
  elimination_step pts (weight_matrix pts r) r st
  = Ok (mkState (sorted tuple_ltb (map (decrement pts r i) h))
                (drop i (id_set st))).
Proof.
  intros Hr HI Hh.
  destruct (Inv_last pts r st h w i HI Hh) as (Hi & Hlt & Hni & _ & Hall).
  unfold elimination_step. rewrite Hh, pop_snoc. cbn [bind fst snd].
  rewrite (set_remove_In i (id_set st) Hi). cbn [bind].
  rewrite (index_ok pts i (pt pts i) (pt_nth_error pts i Hlt)). cbn [bind].
  rewrite set_remove_In.
  2:{ apply In_query_ball_point. split; [exact Hlt|].
      unfold distance. rewrite euclidean_refl. lra. }
  cbn [bind].
  rewrite (mapM_ok _ (decrement pts r i)); [reflexivity|].
  intros wj Hwj. rewrite Forall_forall in Hall.
  destruct (Hall wj Hwj) as [Hj Hne].
  unfold decrement.
  destruct (within pts r i (snd wj)) eqn:Hw.
  - replace (mem (snd wj) (drop i (query_ball_point pts (pt pts i) (2 * r))))
      with true.
    + rewrite (get2_weight_matrix pts r i (snd wj) Hlt Hj). reflexivity.
    + symmetry. apply mem_In, In_drop. split; [|exact Hne].
      apply In_query_ball_point. split; [exact Hj|].
      apply Rleb_true. exact Hw.
  - replace (mem (snd wj) (drop i (query_ball_point pts (pt pts i) (2 * r))))
      with false; [reflexivity|].
    symmetry. apply mem_false. intros Hin.
    apply In_drop in Hin. destruct Hin as [Hin _].
    apply In_query_ball_point in Hin. destruct Hin as [_ Hd].
    apply Rleb_true in Hd. unfold within in Hw. congruence.
Qed.

Lemma step_preserves_Inv (pts : list point) (r : R) (st : state)
    (h : list (R * nat)) (w : R) (i : nat) :
  Inv pts r st -> heap st = h ++ [(w, i)] ->
  Inv pts r (mkState (sorted tuple_ltb (map (decrement pts r i) h))
                     (drop i (id_set st))).
Proof.
  intros HI Hh.
  destruct (Inv_last pts r st h w i HI Hh) as (Hi & Hlt & Hni & Hperm & Hall).
  pose proof HI as [_ _ Hnd Hrange Hweight].
  constructor; cbn [heap id_set].
  - apply heap_sorted.
  - eapply Permutation_trans;
      [apply Permutation_map, heap_perm|].
    rewrite map_snd_decrement. exact Hperm.
  - apply NoDup_drop. exact Hnd.
  - apply Forall_forall. intros j Hj. apply In_drop in Hj.
    rewrite Forall_forall in Hrange. apply Hrange, Hj.
  - eapply Permutation_Forall; [apply Permutation_sym, heap_perm|].
    apply Forall_map. apply Forall_forall. intros wj Hwj.
    rewrite Forall_forall in Hall, Hweight.
    destruct (Hall wj Hwj) as [_ Hne].
    assert (Hw : fst wj = current_total_weight pts r (id_set st) (snd wj)).
    { apply Hweight. rewrite Hh. apply in_or_app. left. exact Hwj. }
    rewrite snd_decrement.
    rewrite (current_total_weight_drop pts r (id_set st) i (snd wj) Hnd Hi)
      by congruence.
    unfold decrement. destruct (within pts r i (snd wj)); cbn [fst]; lra.
Qed.

(** The state built before the loop satisfies the invariant. *)
Lemma initial_Inv (pts : list point) (r : R) :
  Inv pts r
      (initial_state pts
         (map (current_total_weight pts r (seq 0 (length pts)))
              (seq 0 (length pts)))).
Proof.
  set (W := map _ _).
  assert (HlenW : length W = length pts).
  { unfold W. rewrite length_map, length_seq. reflexivity. }
  constructor; cbn [heap id_set initial_state].
  - apply heap_sorted.
  - eapply Permutation_trans; [apply Permutation_map, heap_perm|].
    rewrite map_map. cbn [snd].
    change (map (fun x : nat * R => fst x) (enumerate W))
      with (map fst (enumerate W)).
    rewrite map_fst_enumerate, HlenW. apply Permutation_refl.
  - apply seq_NoDup.
  - apply Forall_forall. intros i Hi. apply in_seq in Hi. lia.
  - eapply Permutation_Forall; [apply Permutation_sym, heap_perm|].
    apply Forall_map. apply Forall_forall. intros [i w] Hiw. cbn [fst snd].
    apply In_enumerate in Hiw. unfold W in Hiw.
    rewrite nth_error_map in Hiw.
    destruct (nth_error (seq 0 (length pts)) i) as [i'|] eqn:E;
      cbn in Hiw; [|discriminate].
    injection Hiw as <-.
    assert (Hlt : (i < length (seq 0 (length pts)))%nat).
    { apply nth_error_Some. congruence. }
    rewrite length_seq in Hlt.
    rewrite nth_error_seq in E.
    destruct (Nat.ltb_spec i (length pts)); [|lia].
    injection E as <-. reflexivity.
Qed.

Lemma reachable_Inv (pts : list point) (area : R) (k : nat) (st : state) :
  reachable pts area k st -> Inv pts (rmax area k) st.
Proof.
  induction 1 as [W HW | st st' _ IH Hk Hstep].
  - rewrite initial_weights_ok in HW. injection HW as <-.
    apply initial_Inv.
  - assert (Hne : heap st <> []).
    { intros E. pose proof (inv_perm _ _ _ IH) as Hp.
      rewrite E in Hp. cbn in Hp. apply Permutation_nil in Hp.
      rewrite Hp in Hk. cbn in Hk. lia. }
    destruct (nonempty_snoc (heap st) Hne) as (h & [w i] & Hh).
    rewrite (elimination_step_ok pts _ st h w i (rmax_nonneg area k) IH Hh)
      in Hstep.
    injection Hstep as <-.
    apply (step_preserves_Inv pts _ st h w i IH Hh).
Qed.

End EliminationStep.

(** ** The elimination engine: the loop and the returned points *)

Section EliminationLoop.

Local Open Scope R_scope.

Lemma Inv_heap_nonempty (pts : list point) (r : R) (st : state) :
  Inv pts r st -> id_set st <> [] ->
  exists h w i, heap st = h ++ [(w, i)].
Proof.
  intros HI Hne.
  assert (Hh : heap st <> []).
  { intros E. pose proof (inv_perm _ _ _ HI) as Hp.
    rewrite E in Hp. cbn in Hp. apply Permutation_nil in Hp.
    contradiction. }
  destruct (nonempty_snoc (heap st) Hh) as (h & [w i] & E).
  exists h, w, i. exact E.
Qed.

Lemma elimination_loop_exit (fuel : nat) (pts : list point)
    (D : list (list R)) (r : R) (k : nat) (st : state) :
  (length (id_set st) <= k)%nat ->
  elimination_loop fuel pts D r k st = Some (Ok st).
Proof.
  intros Hle.
  destruct fuel; cbn [elimination_loop];
    destruct (Nat.ltb_spec k (length (id_set st))); try lia; reflexivity.
Qed.

(** With enough fuel the loop ends normally, in a state that satisfies the
    invariant and has [sample_count] indices left when it started with
    more. *)
Lemma elimination_loop_ok (pts : list point) (r : R) (k : nat) :
  0 <= r ->
  forall (fuel : nat) (st : state),
    Inv pts r st ->
    (length (id_set st) - k <= fuel)%nat ->
    exists st',
      elimination_loop fuel pts (weight_matrix pts r) r k st = Some (Ok st')
      /\ Inv pts r st'
      /\ length (id_set st') = Nat.min (length (id_set st)) k.
Proof.
  intros Hr. induction fuel as [|fuel IH]; intros st HI Hfuel.
  - exists st. rewrite elimination_loop_exit by lia.
    split; [reflexivity|]. split; [exact HI | lia].
  - destruct (Nat.ltb_spec k (length (id_set st))) as [Hlt | Hge].
    + assert (Hne : id_set st <> []).
      { intros E. rewrite E in Hlt. cbn in Hlt. lia. }
      destruct (Inv_heap_nonempty pts r st HI Hne) as (h & w & i & Hh).
      destruct (Inv_last pts r st h w i HI Hh) as (Hi & _).
      pose proof (length_drop i (id_set st) (inv_nodup _ _ _ HI) Hi) as Hlen.
      destruct (IH _ (step_preserves_Inv pts r st h w i HI Hh))
        as (st' & Hloop & HI' & Hlen').
      { cbn [id_set]. lia. }
      exists st'. cbn [elimination_loop].
      destruct (Nat.ltb_spec k (length (id_set st))); [|lia].
      rewrite (elimination_step_ok pts r st h w i Hr HI Hh).
      split; [exact Hloop|]. split; [exact HI'|].
      rewrite Hlen'. cbn [id_set]. lia.
    + exists st. rewrite elimination_loop_exit by lia.
      split; [reflexivity|]. split; [exact HI | lia].
Qed.

(** Every state the loop passes through is reachable. *)
Lemma elimination_loop_reachable (pts : list point) (area : R) (k : nat) :
  forall (fuel : nat) (st st' : state),
    reachable pts area k st ->
    elimination_loop fuel pts (weight_matrix pts (rmax area k)) (rmax area k)
                     k st = Some (Ok st') ->
    reachable pts area k st'.
Proof.
  induction fuel as [|fuel IH]; intros st st' Hreach Hloop;
    cbn [elimination_loop] in Hloop;
    destruct (Nat.ltb_spec k (length (id_set st))) as [Hlt | Hge];
    try discriminate.
  - injection Hloop as <-. exact Hreach.
  - destruct (elimination_step pts (weight_matrix pts (rmax area k))
                               (rmax area k) st) as [st1 | e] eqn:Hstep;
      [|discriminate].
    apply (IH st1 st'); [|exact Hloop].
    apply (reach_step pts area k st st1 Hreach Hlt Hstep).
  - injection Hloop as <-. exact Hreach.
Qed.

(** Indexing by indices of the list. *)
Lemma take_ids_ok (pts : list point) (ids : list nat) :
  Forall (fun i => (i < length pts)%nat) ids ->
  take_ids pts ids = Ok (map (pt pts) ids).
Proof.
  induction 1 as [|i ids Hi _ IH]; [reflexivity|].
  cbn [take_ids map].
  rewrite (index_ok pts i (pt pts i) (pt_nth_error pts i Hi)). cbn [bind].
  rewrite IH. reflexivity.
Qed.

Lemma map_pt_seq (pts : list point) :
  map (pt pts) (seq 0 (length pts)) = pts.
Proof.
  induction pts as [|p pts IH]; [reflexivity|].
  cbn [length seq map]. rewrite <- seq_shift, map_map. f_equal. exact IH.
Qed.

Lemma seq_sorted (s n : nat) : StronglySorted (le_of Nat.ltb) (seq s n).
Proof.
  revert s. induction n as [|n IH]; intros s; cbn; constructor.
  - apply IH.
  - apply Forall_forall. intros j Hj. apply in_seq in Hj.
    apply nat_le_of. lia.
Qed.

Lemma sorted_nat_sorted (ids : list nat) :
  StronglySorted (le_of Nat.ltb) (sorted Nat.ltb ids).
Proof. apply sorted_sorted; [apply nat_ltb_asym | apply nat_le_of_trans]. Qed.

Lemma sorted_nodup_increasing (l : list nat) :
  StronglySorted (le_of Nat.ltb) l -> NoDup l -> StronglySorted lt l.
Proof.
  induction 1 as [|a l Hs IH Hall]; intros Hnd; constructor.
  - apply IH. inversion Hnd. assumption.
  - inversion Hnd as [|? ? Hni _]; subst.
    rewrite Forall_forall in *. intros b Hb.
    specialize (Hall b Hb). apply nat_le_of in Hall.
    assert (a <> b) by (intros ->; contradiction). lia.
Qed.

(** The call never runs out of fuel and never raises: it returns the
    points at [min (length point_list) sample_count] strictly increasing
    indices. *)
Lemma elimination_selects (pts : list point) (area : R) (k : nat) :
  exists ids : list nat,
    StronglySorted lt ids /\
    Forall (fun i => (i < length pts)%nat) ids /\
    length ids = Nat.min (length pts) k /\
    blue_noise_sample_elimination pts area k = Some (Ok (map (pt pts) ids)).
Proof.
  unfold blue_noise_sample_elimination.
  rewrite initial_weights_ok.
  destruct (elimination_loop_ok pts (rmax area k) k (rmax_nonneg area k)
              (length pts) _ (initial_Inv pts (rmax area k)))
    as (st' & Hloop & HI' & Hlen').
  { cbn [initial_state id_set]. rewrite length_seq. lia. }
  rewrite Hloop.
  cbn [initial_state id_set] in Hlen'. rewrite length_seq in Hlen'.
  pose proof (sorted_perm nat Nat.ltb (id_set st')) as Hperm.
  exists (sorted Nat.ltb (id_set st')).
  assert (Hrange : Forall (fun i => (i < length pts)%nat)
                          (sorted Nat.ltb (id_set st'))).
  { eapply Permutation_Forall; [apply Permutation_sym, Hperm|].
    apply (inv_range _ _ _ HI'). }
  split; [|split; [exact Hrange | split]].
  - apply sorted_nodup_increasing; [apply sorted_nat_sorted|].
    eapply Permutation_NoDup; [apply Permutation_sym, Hperm|].
    apply (inv_nodup _ _ _ HI').
  - rewrite (Permutation_length Hperm). exact Hlen'.
  - rewrite (take_ids_ok pts _ Hrange). reflexivity.
Qed.

(** When nothing has to be removed the whole list comes back. *)
Lemma elimination_keeps_all (pts : list point) (area : R) (k : nat) :
  (length pts <= k)%nat ->
  blue_noise_sample_elimination pts area k = Some (Ok pts).
Proof.
  intros Hle. unfold blue_noise_sample_elimination.
  rewrite initial_weights_ok.
  rewrite elimination_loop_exit
    by (cbn [initial_state id_set]; rewrite length_seq; exact Hle).
  cbn [initial_state id_set].
  rewrite (sorted_id nat Nat.ltb (seq 0 (length pts)) (seq_sorted 0 (length pts))).
  rewrite take_ids_ok.
  - rewrite map_pt_seq. reflexivity.
  - apply Forall_forall. intros i Hi. apply in_seq in Hi. lia.
Qed.

Lemma map_pt_Forall2 (pts : list point) (ids : list nat) :
  Forall (fun i => (i < length pts)%nat) ids ->
  Forall2 (fun i p => nth_error pts i = Some p) ids (map (pt pts) ids).
Proof.
  induction 1 as [|i ids Hi _ IH]; cbn; constructor.
  - apply pt_nth_error. exact Hi.
  - exact IH.
Qed.

End EliminationLoop.

(** ** The elimination engine: statements about a call *)

Section EliminationClaims.

Local Open Scope R_scope.

(** C1. When the candidate list has at least [sample_count] points, the
    call returns exactly [sample_count] of them: the points at strictly
    increasing indices of the candidate list, that is, a subset in the
    original candidate order. *)
Theorem elimination_returns_target_count
    (pts : list point) (area : R) (k : nat) :
  (k <= length pts)%nat ->
  exists (ids : list nat) (selected : list point),
    blue_noise_sample_elimination pts area k = Some (Ok selected) /\
    length selected = k /\
    StronglySorted lt ids /\
    Forall2 (fun i p => nth_error pts i = Some p) ids selected.
Proof.
  intros Hk.
  destruct (elimination_selects pts area k) as (ids & Hs & Hr & Hl & Hrun).
  exists ids, (map (pt pts) ids).
  split; [exact Hrun|]. split; [rewrite length_map; lia|].
  split; [exact Hs | apply map_pt_Forall2; exact Hr].
Qed.

Lemma elimination_returns_target_count_witness :
  exists (ids : list nat) (selected : list point),
    blue_noise_sample_elimination three_points 1 2 = Some (Ok selected) /\
    length selected = 2%nat /\
    StronglySorted lt ids /\
    Forall2 (fun i p => nth_error three_points i = Some p) ids selected.
Proof.
  apply (elimination_returns_target_count three_points 1 2).
  cbn. lia.
Defined.

(** C10. When the candidate list has at most [sample_count] points, the
    call removes nothing (the loop ends in the state it starts in) and
    returns the candidate list itself, without raising. *)
Theorem elimination_small_input_unchanged
    (pts : list point) (area : R) (k : nat) :
  (length pts <= k)%nat ->
  (exists W : list R,
      initial_weights pts (weight_matrix pts (rmax area k)) (rmax area k)
        = Ok W /\
      elimination_loop (length pts) pts (weight_matrix pts (rmax area k))
                       (rmax area k) k (initial_state pts W)
        = Some (Ok (initial_state pts W))) /\
  blue_noise_sample_elimination pts area k = Some (Ok pts).
Proof.
  intros Hle. split.
  - eexists. split; [apply initial_weights_ok|].
    apply elimination_loop_exit.
    cbn [initial_state id_set]. rewrite length_seq. exact Hle.
  - apply elimination_keeps_all. exact Hle.
Qed.

Lemma elimination_small_input_unchanged_witness :
  blue_noise_sample_elimination three_points 1 5 = Some (Ok three_points).
Proof.
  apply (proj2 (elimination_small_input_unchanged three_points 1 5
                  ltac:(cbn; lia))).
Defined.

(** C2, counterexample: with one candidate and a target of two points the
    call raises no [InsufficientCandidatesError]; it returns the single
    candidate. *)
Lemma elimination_too_few_candidates_returns :
  blue_noise_sample_elimination [origin] 1 2 = Some (Ok [origin]) /\
  blue_noise_sample_elimination [origin] 1 2
    <> Some (Raise InsufficientCandidatesError).
Proof.
  assert (E : blue_noise_sample_elimination [origin] 1 2 = Some (Ok [origin])).
  { apply elimination_keeps_all. cbn. lia. }
  split; [exact E | rewrite E; discriminate].
Qed.

(** C2 (as the code behaves). With fewer candidates than [sample_count]
    the loop condition is false at once: the loop ends in the state it
    starts in and the call returns the whole candidate list.  With at
    least [sample_count] candidates, a positive surface area and a
    positive [sample_count], the call returns exactly [sample_count]
    points. *)
Theorem elimination_without_count_check
    (pts : list point) (area : R) (k : nat) :
  ((length pts < k)%nat ->
   (exists W : list R,
       initial_weights pts (weight_matrix pts (rmax area k)) (rmax area k)
         = Ok W /\
       elimination_loop (length pts) pts (weight_matrix pts (rmax area k))
                        (rmax area k) k (initial_state pts W)
         = Some (Ok (initial_state pts W))) /\
   blue_noise_sample_elimination pts area k = Some (Ok pts)) /\
  (0 < area -> (0 < k)%nat -> (k <= length pts)%nat ->
   exists selected : list point,
     blue_noise_sample_elimination pts area k = Some (Ok selected) /\
     length selected = k).
Proof.
  split.
  - intros Hlt. split.
    + eexists. split; [apply initial_weights_ok|].
      apply elimination_loop_exit.
      cbn [initial_state id_set]. rewrite length_seq. lia.
    + apply elimination_keeps_all. lia.
  - intros _ _ Hle.
    destruct (elimination_selects pts area k) as (ids & _ & _ & Hl & Hrun).
    exists (map (pt pts) ids). split; [exact Hrun|].
    rewrite length_map. lia.
Qed.

Lemma elimination_without_count_check_witness :
  blue_noise_sample_elimination three_points 1 5 = Some (Ok three_points) /\
  exists selected : list point,
    blue_noise_sample_elimination three_points 1 2 = Some (Ok selected) /\
    length selected = 2%nat.
Proof.
  split.
  - apply (proj1 (elimination_without_count_check three_points 1 5)).
    cbn. lia.
  - apply (proj2 (elimination_without_count_check three_points 1 2)).
    + lra.
    + lia.
    + cbn. lia.
Defined.

End EliminationClaims.

(** ** The elimination engine: weights *)

Section EliminationWeights.

Local Open Scope R_scope.

Lemma weight_of_In (h : list (R * nat)) (w : R) (j : nat) :
  NoDup (map snd h) -> In (w, j) h -> weight_of h j = Some w.
Proof.
  unfold weight_of. induction h as [|[w0 j0] h IH]; intros Hnd Hin.
  - contradiction.
  - cbn [map snd] in Hnd. inversion Hnd as [|? ? Hni Hnd']; subst.
    cbn [find snd]. destruct (Nat.eqb_spec j0 j) as [E | N].
    + subst j0. destruct Hin as [Hin | Hin].
      * injection Hin as ->. reflexivity.
      * exfalso. apply Hni. apply (in_map snd) in Hin. exact Hin.
    + destruct Hin as [Hin | Hin]; [congruence|].
      apply IH; assumption.
Qed.

Lemma Inv_heap_nodup (pts : list point) (r : R) (st : state) :
  Inv pts r st -> NoDup (map snd (heap st)).
Proof.
  intros HI. eapply Permutation_NoDup.
  - apply Permutation_sym, (inv_perm _ _ _ HI).
  - apply (inv_nodup _ _ _ HI).
Qed.

(** Under the invariant the heap stores, for every surviving index, its
    current total weight. *)
Lemma Inv_weight_of (pts : list point) (r : R) (st : state) (j : nat) :
  Inv pts r st -> In j (id_set st) ->
  In (current_total_weight pts r (id_set st) j, j) (heap st) /\
  weight_of (heap st) j = Some (current_total_weight pts r (id_set st) j).
Proof.
  intros HI Hj.
  assert (Hin : In j (map snd (heap st))).
  { eapply Permutation_in; [apply Permutation_sym, (inv_perm _ _ _ HI)|].
    exact Hj. }
  apply in_map_iff in Hin. destruct Hin as ([w j'] & E & Hin).
  cbn in E. subst j'.
  pose proof (inv_weight _ _ _ HI) as Hw. rewrite Forall_forall in Hw.
  specialize (Hw _ Hin). cbn in Hw. subst w.
  split; [exact Hin|].
  apply weight_of_In; [apply (Inv_heap_nodup pts r st HI) | exact Hin].
Qed.

Lemma decrement_within (pts : list point) (r : R) (i : nat) (w : R)
    (j : nat) :
  decrement pts r i (w, j)
  = (if Rle_dec (distance pts i j) (2 * r)
     then w - pair_weight (distance pts i j) r else w, j).
Proof.
  unfold decrement, within, Rleb. cbn [fst snd].
  destruct (Rle_dec (distance pts i j) (2 * r)); reflexivity.
Qed.

(** The effect of one pass of the loop on a non-empty state that satisfies
    the invariant. *)
Lemma elimination_step_effect (pts : list point) (r : R) (st : state) :
  0 <= r -> Inv pts r st -> id_set st <> [] ->
  exists (i : nat) (st' : state),
    elimination_step pts (weight_matrix pts r) r st
      = Ok st' /\
    In i (id_set st) /\
    (forall j : nat,
        In j (id_set st) ->
        weight_of (heap st) j
          = Some (current_total_weight pts r (id_set st) j)) /\
    (forall j : nat,
        In j (id_set st) ->
        current_total_weight pts r (id_set st) j
          <= current_total_weight pts r (id_set st) i /\
        (current_total_weight pts r (id_set st) j
           = current_total_weight pts r (id_set st) i ->
         (j <= i)%nat)) /\
    id_set st' = drop i (id_set st) /\
    (forall j : nat,
        In j (id_set st') ->
        weight_of (heap st') j
          = Some (if Rle_dec (distance pts i j) (2 * r)
                  then current_total_weight pts r (id_set st) j
                       - pair_weight (distance pts i j) r
                  else current_total_weight pts r (id_set st) j)).
Proof.
  intros Hr HI Hne.
  destruct (Inv_heap_nonempty pts r st HI Hne) as (h & w & i & Hh).
  destruct (Inv_last pts r st h w i HI Hh) as (Hi & _ & Hni & _ & _).
  pose proof (step_preserves_Inv pts r st h w i HI Hh) as HI'.
  pose proof (inv_sorted _ _ _ HI) as Hsorted. rewrite Hh in Hsorted.
  apply sorted_snoc_max in Hsorted. rewrite Forall_forall in Hsorted.
  assert (Hw : w = current_total_weight pts r (id_set st) i).
  { pose proof (inv_weight _ _ _ HI) as Hall. rewrite Forall_forall in Hall.
    apply (Hall (w, i)). rewrite Hh. apply in_or_app. right. left.
    reflexivity. }
  exists i, (mkState (sorted tuple_ltb (map (decrement pts r i) h))
                     (drop i (id_set st))).
  split; [apply (elimination_step_ok pts r st h w i Hr HI Hh)|].
  split; [exact Hi|].
  split; [intros j Hj; apply (Inv_weight_of pts r st j HI Hj)|].
  split; [|split; [reflexivity|]].
  - intros j Hj.
    destruct (Inv_weight_of pts r st j HI Hj) as [Hin _].
    rewrite Hh in Hin. apply in_app_or in Hin.
    destruct Hin as [Hin | [Hin | []]].
    + specialize (Hsorted _ Hin). apply tuple_le in Hsorted.
      cbn [fst snd] in Hsorted. rewrite <- Hw.
      destruct Hsorted as [Hlt | [E Hle]]; split; intros; try lra; try lia.
    + injection Hin as _ ->. split; [lra | lia].
  - cbn [id_set heap]. intros j Hj.
    pose proof Hj as Hj'. apply In_drop in Hj'. destruct Hj' as [Hjs Hne'].
    destruct (Inv_weight_of pts r st j HI Hjs) as [Hin _].
    rewrite Hh in Hin. apply in_app_or in Hin.
    destruct Hin as [Hin | [Hin | []]]; [|congruence].
    apply (in_map (decrement pts r i)) in Hin.
    rewrite decrement_within in Hin.
    apply weight_of_In.
    + apply (Inv_heap_nodup pts r _ HI').
    + eapply Permutation_in; [apply Permutation_sym, heap_perm | exact Hin].
Qed.

Lemma three_points_start_reachable :
  reachable three_points 1 2 three_points_start.
Proof.
  apply (reach_init three_points 1 2 _
           (initial_weights_ok three_points (rmax 1 2))).
Qed.

(** C5. A pass of the loop increases no weight: every index that survives
    the pass has a stored weight before and after it, and the weight after
    is at most the weight before. *)
Theorem elimination_weights_never_increase
    (pts : list point) (area : R) (k : nat) (st : state) :
  reachable pts area k st ->
  (k < length (id_set st))%nat ->
  exists st' : state,
    elimination_step pts (weight_matrix pts (rmax area k)) (rmax area k) st
      = Ok st' /\
    forall j : nat,
      In j (id_set st') ->
      exists w w' : R,
        weight_of (heap st) j = Some w /\
        weight_of (heap st') j = Some w' /\
        w' <= w.
Proof.
  intros Hreach Hk.
  destruct (elimination_step_effect pts (rmax area k) st)
    as (i & st' & Hstep & _ & Hbefore & _ & Hids & Hafter).
  - apply rmax_nonneg.
  - apply reachable_Inv. exact Hreach.
  - intros E. rewrite E in Hk. cbn in Hk. lia.
  - exists st'. split; [exact Hstep|].
    intros j Hj.
    assert (Hjs : In j (id_set st)).
    { rewrite Hids in Hj. apply In_drop in Hj. apply Hj. }
    eexists. eexists.
    split; [apply Hbefore, Hjs|]. split; [apply Hafter, Hj|].
    pose proof (pair_weight_nonneg (distance pts i j) (rmax area k)).
    destruct (Rle_dec (distance pts i j) (2 * rmax area k)); lra.
Qed.

Lemma elimination_weights_never_increase_witness :
  exists st' : state,
    elimination_step three_points (weight_matrix three_points (rmax 1 2))
                     (rmax 1 2) three_points_start = Ok st' /\
    forall j : nat,
      In j (id_set st') ->
      exists w w' : R,
        weight_of (heap three_points_start) j = Some w /\
        weight_of (heap st') j = Some w' /\
        w' <= w.
Proof.
  apply (elimination_weights_never_increase three_points 1 2
           three_points_start three_points_start_reachable).
  cbn. lia.
Defined.

Lemma rmax_positive (area : R) (k : nat) :
  0 < area -> (0 < k)%nat -> 0 < rmax area k.
Proof.
  intros Ha Hk. unfold rmax. apply sqrt_lt_R0.
  apply Rdiv_lt_0_compat; [exact Ha|].
  apply Rmult_lt_0_compat.
  - apply Rmult_lt_0_compat; [lra | apply lt_0_INR; exact Hk].
  - apply sqrt_lt_R0. lra.
Qed.



End EliminationWeights.

(** ** The elimination engine: one pass on any state of the right shape *)

Section EliminationPass.

Local Open Scope R_scope.















End EliminationPass.

(** ** A run on three points *)

Section ThreePoints.

Local Open Scope R_scope.

(** The interaction radius for area 1 and two samples is below 1. *)
Lemma three_points_radius : 2 * rmax 1 2 < 1.
Proof.
  unfold rmax.
  assert (Hs3 : 1 < sqrt 3).
  { rewrite <- sqrt_1 at 1. apply sqrt_lt_1; lra. }
  set (q := 1 / (2 * INR 2 * sqrt 3)).
  assert (Hq : 0 < q < / 4).
  { unfold q. cbn [INR]. split.
    - apply Rdiv_lt_0_compat; nra.
    - apply (Rmult_lt_reg_r (2 * (1 + 1) * sqrt 3)); [nra|].
      unfold Rdiv. rewrite Rmult_assoc, Rinv_l by nra. nra. }
  assert (Hr : sqrt q < / 2).
  { replace (/ 2) with (sqrt (/ 4)).
    - apply sqrt_lt_1; lra.
    - replace (/ 4) with (/ 2 * / 2) by lra. apply sqrt_square. lra. }
  lra.
Qed.

Lemma three_points_far (i j : nat) :
  (i < 3)%nat -> (j < 3)%nat -> i <> j ->
  within three_points (rmax 1 2) i j = false.
Proof.
  intros Hi Hj Hij. unfold within, Rleb.
  destruct (Rle_dec (distance three_points i j) (2 * rmax 1 2)) as [Hle|];
    [|reflexivity].
  exfalso. pose proof three_points_radius as Hr.
  assert (Hd : 1 <= distance three_points i j).
  { unfold distance, euclidean.
    rewrite <- sqrt_1 at 1. apply sqrt_le_1_alt.
    destruct i as [|[|[|i]]]; destruct j as [|[|[|j]]]; try lia;
      cbn; lra. }
  lra.
Qed.

Lemma three_points_weights (i : nat) :
  (i < 3)%nat ->
  current_total_weight three_points (rmax 1 2) (seq 0 3) i = 0.
Proof.
  intros Hi. unfold current_total_weight. cbn [seq filter].
  destruct i as [|[|[|i]]]; try lia; cbn [Nat.eqb negb andb];
    rewrite ?three_points_far by lia; reflexivity.
Qed.

Lemma three_points_heap :
  heap three_points_start = [(0, 0%nat); (0, 1%nat); (0, 2%nat)].
Proof.
  unfold three_points_start, initial_state. cbn [heap map seq enumerate
    length combine fst snd].
  rewrite !three_points_weights by lia.
  apply sorted_id.
  repeat constructor; apply tuple_le; right; cbn; split; (reflexivity || lia).
Qed.

(** All pair weights vanish, so the three entries tie at weight 0; the
    entry of the largest index is popped, and the points of indices 0 and 1
    are returned. *)
Example three_points_run :
  blue_noise_sample_elimination three_points 1 2
  = Some (Ok [mk3 0 0 0; mk3 1 0 0]).
Proof.
  unfold blue_noise_sample_elimination.
  rewrite initial_weights_ok.
  change (initial_state three_points _) with three_points_start.
  cbn [length three_points elimination_loop].
  change (2 <? length (id_set three_points_start))%nat with true.
  cbv iota.
  rewrite (elimination_step_ok three_points (rmax 1 2) three_points_start
             [(0, 0%nat); (0, 1%nat)] 0 2 (rmax_nonneg 1 2)
             (initial_Inv three_points (rmax 1 2)) three_points_heap).
  cbn [id_set three_points_start initial_state drop filter seq length
         three_points Nat.eqb negb Nat.ltb Nat.leb].
  reflexivity.
Qed.

End ThreePoints.

(** * Further properties *)

(** ** Areas: what [mesh_area] does not depend on *)

Section MeshAreaMore.

Local Open Scope R_scope.

Lemma Forall2_map_self {A B : Type} (P : A -> B -> Prop) (f : A -> B)
    (l : list A) :
  (forall a, P a (f a)) -> Forall2 P l (map f l).
Proof.
  intros Hf. induction l as [|a l IH]; cbn; constructor; [apply Hf | exact IH].
Qed.

Lemma mesh_area_ext (f : triangle R -> triangle R) (g : R -> R)
    (tl : list (triangle R)) :
  (forall t,
      sqrt (sum_sq (cross (vsub (v1 (f t)) (v0 (f t)))
                          (vsub (v2 (f t)) (v0 (f t))))) * / 2
      = g (sqrt (sum_sq (cross (vsub (v1 t) (v0 t))
                               (vsub (v2 t) (v0 t)))) * / 2)) ->
  mesh_area (map f tl) = map g (mesh_area tl).
Proof.
  intros Hfg. rewrite !mesh_area_map, !map_map.
  apply map_ext. exact Hfg.
Qed.

(** X1. Moving a mesh does not change its areas. *)
Theorem mesh_area_translation (d : vec3 R) (tl : list (triangle R)) :
  mesh_area (map (map_triangle (shift d)) tl) = mesh_area tl.
Proof.
  rewrite <- (map_id (mesh_area tl)).
  apply mesh_area_ext. intros [[a0 b0 c0] [a1 b1 c1] [a2 b2 c2]].
  unfold sum_sq, cross, vsub, map_triangle, shift. cbn.
  do 2 f_equal. ring.
Qed.

(** X2. The area of a triangle does not depend on the vertex its list
    starts from, nor on the orientation of the list. *)
Theorem mesh_area_vertex_order (tl : list (triangle R)) :
  mesh_area (map rotate_vertices tl) = mesh_area tl /\
  mesh_area (map swap_vertices tl) = mesh_area tl.
Proof.
  split; rewrite <- (map_id (mesh_area tl)); apply mesh_area_ext;
    intros [[a0 b0 c0] [a1 b1 c1] [a2 b2 c2]];
    unfold sum_sq, cross, vsub, rotate_vertices, swap_vertices; cbn;
    do 2 f_equal; ring.
Qed.

(** X3. Scaling a mesh by [s] multiplies every area by [s * s]. *)
Theorem mesh_area_scaling (s : R) (tl : list (triangle R)) :
  mesh_area (map (map_triangle (scale s)) tl)
  = map (fun a => s * s * a) (mesh_area tl).
Proof.
  apply mesh_area_ext. intros [[a0 b0 c0] [a1 b1 c1] [a2 b2 c2]].
  unfold sum_sq, cross, vsub, map_triangle, scale. cbn.
  set (q := (b1 - b0) * (c2 - c0) - (c1 - c0) * (b2 - b0)).
  set (q' := (c1 - c0) * (a2 - a0) - (a1 - a0) * (c2 - c0)).
  set (q'' := (a1 - a0) * (b2 - b0) - (b1 - b0) * (a2 - a0)).
  replace ((s * b1 - s * b0) * (s * c2 - s * c0)
           - (s * c1 - s * c0) * (s * b2 - s * b0)) with (s * s * q)
    by (unfold q; ring).
  replace ((s * c1 - s * c0) * (s * a2 - s * a0)
           - (s * a1 - s * a0) * (s * c2 - s * c0)) with (s * s * q')
    by (unfold q'; ring).
  replace ((s * a1 - s * a0) * (s * b2 - s * b0)
           - (s * b1 - s * b0) * (s * a2 - s * a0)) with (s * s * q'')
    by (unfold q''; ring).
  replace (s * s * q * (s * s * q) + s * s * q' * (s * s * q')
           + s * s * q'' * (s * s * q''))
    with ((s * s) * (s * s) * (q * q + q' * q' + q'' * q'')) by ring.
  rewrite sqrt_mult by nra.
  rewrite sqrt_square by nra. ring.
Qed.

(** X4. The squared area of a triangle with edge vectors [e1 = v1 - v0]
    and [e2 = v2 - v0] is a quarter of
    [(e1 . e1) (e2 . e2) - (e1 . e2) ^ 2]. *)
Theorem mesh_area_gram (tl : list (triangle R)) :
  Forall2 (fun t a =>
             4 * (a * a)
             = dot (vsub (v1 t) (v0 t)) (vsub (v1 t) (v0 t))
               * dot (vsub (v2 t) (v0 t)) (vsub (v2 t) (v0 t))
               - dot (vsub (v1 t) (v0 t)) (vsub (v2 t) (v0 t))
                 * dot (vsub (v1 t) (v0 t)) (vsub (v2 t) (v0 t)))
          tl (mesh_area tl).
Proof.
  rewrite mesh_area_map. apply Forall2_map_self. intros t.
  rewrite <- cross_lagrange, <- sum_sq_dot.
  set (q := sum_sq _).
  assert (Hq : 0 <= q).
  { unfold q. rewrite sum_sq_dot. unfold dot. nra. }
  pose proof (sqrt_sqrt q Hq). nra.
Qed.

End MeshAreaMore.

(** ** Point picking and sampling *)

Section SamplingMore.

Local Open Scope R_scope.

Lemma fold_square_cases (u v : R) :
  (u + v > 1 /\ fold_square (u, v) = (1 - v, 1 - u)) \/
  (u + v <= 1 /\ fold_square (u, v) = (u, v)).
Proof.
  destruct (Rgt_dec (u + v) 1) as [Hgt | Hle].
  - left. split; [exact Hgt | apply fold_square_gt; exact Hgt].
  - right. split; [lra | apply fold_square_le; exact Hle].
Qed.

(** A draw of the unit square is mapped into the triangle. *)
Lemma point_picking_in_triangle (t : triangle R) (x : R * R) :
  in_unit_square x -> in_triangle t (map_to_triangle t (fold_square x)).
Proof.
  destruct x as [u v]. intros [Hu Hv]. cbn in Hu, Hv.
  destruct (fold_square_cases u v) as [[H E] | [H E]]; rewrite E;
    rewrite map_to_triangle_real; apply barycentric_in_triangle; lra.
Qed.

(** X5. Over the reals, folding lands in the half of the unit square below
    the diagonal, where it changes nothing: folding twice is folding
    once. *)
Theorem fold_square_idempotent (x : R * R) :
  in_unit_square x ->
  in_unit_square (fold_square x) /\
  fst (fold_square x) + snd (fold_square x) <= 1 /\
  fold_square (fold_square x) = fold_square x.
Proof.
  destruct x as [u v]. intros [Hu Hv]. cbn in Hu, Hv.
  destruct (fold_square_cases u v) as [[H E] | [H E]]; rewrite E.
  - split; [split; cbn; lra|]. split; [cbn; lra|].
    apply fold_square_le. lra.
  - split; [split; cbn; lra|]. split; [cbn; lra|].
    apply fold_square_le. lra.
Qed.

Lemma fold_square_idempotent_witness :
  in_unit_square (fold_square (3 / 4, 3 / 4)) /\
  fst (fold_square (3 / 4, 3 / 4)) + snd (fold_square (3 / 4, 3 / 4)) <= 1 /\
  fold_square (fold_square (3 / 4, 3 / 4)) = fold_square (3 / 4, 3 / 4).
Proof.
  apply (fold_square_idempotent (3 / 4, 3 / 4)).
  unfold in_unit_square. cbn. lra.
Defined.

Lemma enumerate_map {A B : Type} (f : A -> B) (l : list A) :
  enumerate (map f l) = map (fun ia => (fst ia, f (snd ia))) (enumerate l).
Proof.
  unfold enumerate. rewrite length_map. generalize 0%nat.
  induction l as [|a l IH]; intros s; cbn; [reflexivity|].
  rewrite IH. reflexivity.
Qed.

Lemma triangle_point_picking_map (f : triangle R -> triangle R)
    (g : vec3 R -> vec3 R) (tl : list (triangle R)) (X : nat -> R * R) :
  (forall t x, map_to_triangle (f t) x = g (map_to_triangle t x)) ->
  triangle_point_picking (map f tl) X = map g (triangle_point_picking tl X).
Proof.
  intros Hfg. unfold triangle_point_picking.
  rewrite enumerate_map, !map_map. apply map_ext. intros [i t]. cbn.
  apply Hfg.
Qed.

(** X6. Point picking follows the mesh: for the same draws, the points
    picked in a moved mesh are the moved points, and the points picked in
    a scaled mesh are the scaled points. *)
Theorem triangle_point_picking_equivariant
    (d : vec3 R) (s : R) (tl : list (triangle R)) (X : nat -> R * R) :
  triangle_point_picking (map (map_triangle (shift d)) tl) X
    = map (shift d) (triangle_point_picking tl X) /\
  triangle_point_picking (map (map_triangle (scale s)) tl) X
    = map (scale s) (triangle_point_picking tl X).
Proof.
  split; apply triangle_point_picking_map;
    intros [[a0 b0 c0] [a1 b1 c1] [a2 b2 c2]] [u v];
    unfold map_to_triangle, map_triangle, shift, scale, vadd, vsub; cbn;
    f_equal; ring.
Qed.

(** Sums of reals. *)
Lemma fsum_Rsum (l : list R) : fsum l = Rsum l.
Proof.
  unfold fsum. cbn [fadd lit0 R_arith].
  rewrite fold_left_Rplus. ring.
Qed.

Lemma Rsum_div (l : list R) (T : R) :
  Rsum (map (fun a => a / T) l) = Rsum l / T.
Proof.
  induction l as [|a l IH]; cbn [map].
  - unfold Rsum. cbn. unfold Rdiv. ring.
  - rewrite !Rsum_cons, IH. unfold Rdiv. ring.
Qed.

Lemma Rsum_nonneg (l : list R) : Forall (fun a => 0 <= a) l -> 0 <= Rsum l.
Proof.
  induction 1 as [|a l Ha _ IH].
  - unfold Rsum. cbn. lra.
  - rewrite Rsum_cons. lra.
Qed.

Lemma Rsum_bounds_member (l : list R) (a : R) :
  Forall (fun a => 0 <= a) l -> In a l -> a <= Rsum l.
Proof.
  induction 1 as [|b l Hb Hl IH]; intros Hin; [contradiction|].
  rewrite Rsum_cons. pose proof (Rsum_nonneg l Hl).
  destruct Hin as [-> | Hin]; [lra|].
  specialize (IH Hin). lra.
Qed.

Lemma mesh_area_nonneg (tl : list (triangle R)) :
  Forall (fun a => 0 <= a) (mesh_area tl).
Proof.
  rewrite mesh_area_map. apply Forall_map, Forall_forall. intros t _.
  pose proof (sqrt_pos (sum_sq (cross (vsub (v1 t) (v0 t))
                                      (vsub (v2 t) (v0 t))))).
  lra.
Qed.

Lemma normalized_probabilities (al : list R) :
  Forall (fun a => 0 <= a) al -> 0 < fsum al ->
  Forall (fun q => 0 <= q <= 1) (normalized al) /\ fsum (normalized al) = 1.
Proof.
  intros Hnn Hpos. unfold normalized. cbn [fdiv R_arith].
  rewrite fsum_Rsum in *. split.
  - apply Forall_map, Forall_forall. intros a Ha.
    pose proof (Rsum_bounds_member al a Hnn Ha) as Hle.
    rewrite Forall_forall in Hnn. specialize (Hnn a Ha).
    split.
    + apply Rmult_le_pos; [exact Hnn|].
      apply Rlt_le, Rinv_0_lt_compat. exact Hpos.
    + apply (Rmult_le_reg_r (Rsum al)); [exact Hpos|].
      unfold Rdiv. rewrite Rmult_assoc, Rinv_l by lra. lra.
  - rewrite fsum_Rsum. rewrite (Rsum_div al (Rsum al)).
    unfold Rdiv. apply Rinv_r. lra.
Qed.

(** X7. Over the reals, for a mesh of positive total area, what
    [uniform_sample_mesh] hands to the index chooser is a probability
    vector with one entry per triangle: every entry lies in [0, 1], the
    entries sum to 1, and the entry of a triangle with collinear vertices
    is 0. *)
Theorem sampling_probabilities (choice : chooser)
    (tl : list (triangle R)) (k : nat) (X : nat -> R * R) :
  0 < fsum (mesh_area tl) ->
  exists p : list R,
    uniform_sample_mesh choice tl (mesh_area tl) k X
      = bind (choice (length tl) k p)
             (fun ids => bind (take_ids tl ids)
                              (fun picked =>
                                 Ok (triangle_point_picking picked X))) /\
    length p = length tl /\
    Forall (fun q => 0 <= q <= 1) p /\
    fsum p = 1 /\
    Forall2 (fun t q => collinear t -> q = 0) tl p.
Proof.
  intros Hpos. exists (normalized (mesh_area tl)).
  destruct (normalized_probabilities (mesh_area tl) (mesh_area_nonneg tl) Hpos)
    as [Hrange Hsum].
  split; [reflexivity|].
  split; [unfold normalized, mesh_area; rewrite !length_map; reflexivity|].
  split; [exact Hrange|]. split; [exact Hsum|].
  unfold normalized. set (T := fsum (mesh_area tl)).
  rewrite mesh_area_map, map_map.
  apply Forall2_map_self. intros t Hc.
  rewrite (collinear_cross_zero t Hc), sqrt_0.
  cbn [fdiv R_arith]. unfold Rdiv. ring.
Qed.

Lemma sampling_probabilities_witness :
  exists p : list R,
    uniform_sample_mesh choice_first [unit_triangle]
                        (mesh_area [unit_triangle]) 2 centre_draw
      = bind (choice_first 1%nat 2%nat p)
             (fun ids => bind (take_ids [unit_triangle] ids)
                              (fun picked =>
                                 Ok (triangle_point_picking picked
                                                            centre_draw))) /\
    length p = 1%nat /\
    Forall (fun q => 0 <= q <= 1) p /\
    fsum p = 1 /\
    Forall2 (fun t q => collinear t -> q = 0) [unit_triangle] p.
Proof.
  apply (sampling_probabilities choice_first [unit_triangle] 2 centre_draw).
  rewrite fsum_Rsum, mesh_area_map. cbn [map]. rewrite Rsum_cons.
  unfold Rsum. cbn [fold_right].
  unfold sum_sq, cross, vsub, unit_triangle. cbn.
  replace ((1 - 0) * (0 - 0) - (0 - 0) * (1 - 0)) with 0 by ring.
  replace ((0 - 0) * (0 - 0) - (1 - 0) * (0 - 0)) with 0 by ring.
  replace ((0 - 0) * (0 - 0) - (0 - 0) * (1 - 0)) with 0 by ring.
  replace ((1 - 0) * (1 - 0) - (0 - 0) * (0 - 0)) with 1 by ring.
  replace (0 * 0 + 0 * 0 + 1 * 1) with 1 by ring.
  rewrite sqrt_1. lra.
Defined.

End SamplingMore.

(** ** Sampling and the pipeline of [main] *)

Section PipelineMore.

Local Open Scope R_scope.

Lemma Forall2_nth_error {A B : Type} (P : A -> B -> Prop) (l : list A)
    (l' : list B) :
  length l = length l' ->
  (forall i a b, nth_error l i = Some a -> nth_error l' i = Some b -> P a b) ->
  Forall2 P l l'.
Proof.
  revert l'. induction l as [|a l IH]; intros [|b l'] Hlen Hnth;
    cbn in Hlen; try discriminate; constructor.
  - apply (Hnth 0%nat); reflexivity.
  - apply IH; [lia|]. intros i x y Hx Hy. apply (Hnth (S i)); assumption.
Qed.

Lemma Forall2_compose {A B C : Type} (P : A -> B -> Prop) (Q : B -> C -> Prop)
    (l1 : list A) (l2 : list B) (l3 : list C) :
  Forall2 P l1 l2 -> Forall2 Q l2 l3 ->
  Forall2 (fun a c => exists b, P a b /\ Q b c) l1 l3.
Proof.
  intros H12. revert l3. induction H12 as [|a b l1 l2 Hab _ IH];
    intros l3 H23; inversion H23; subst; constructor.
  - exists b. split; assumption.
  - apply IH. assumption.
Qed.

(** Indexing by a list of indices either succeeds, when all are in range,
    or raises [IndexError]. *)
Lemma take_ids_cases {A : Type} (l : list A) (ids : list nat) :
  (Forall (fun i => (i < length l)%nat) ids /\
   exists picked,
     take_ids l ids = Ok picked /\
     Forall2 (fun i a => nth_error l i = Some a) ids picked) \/
  (Exists (fun i => (length l <= i)%nat) ids /\
   take_ids l ids = Raise IndexError).
Proof.
  induction ids as [|i ids IH].
  - left. split; [constructor|]. exists []. split; [reflexivity | constructor].
  - cbn [take_ids]. unfold index.
    destruct (nth_error l i) as [a|] eqn:Ha.
    + assert (Hi : (i < length l)%nat) by (apply nth_error_Some; congruence).
      cbn [bind].
      destruct IH as [(Hall & picked & Hp & Hf) | (Hex & Hr)].
      * left. split; [constructor; assumption|].
        exists (a :: picked). rewrite Hp. cbn. split; [reflexivity|].
        constructor; assumption.
      * right. split; [apply Exists_cons_tl; exact Hex|].
        rewrite Hr. reflexivity.
    + right. split; [|reflexivity].
      apply Exists_cons_hd. apply nth_error_None. exact Ha.
Qed.

Lemma Forall_not_Exists_range (n : nat) (ids : list nat) :
  Forall (fun i => (i < n)%nat) ids -> Exists (fun i => (n <= i)%nat) ids ->
  False.
Proof.
  intros Hall Hex. apply Exists_exists in Hex. destruct Hex as (i & Hi & Hge).
  rewrite Forall_forall in Hall. specialize (Hall i Hi). lia.
Qed.

Lemma length_triangle_point_picking (tl : list (triangle R))
    (X : nat -> R * R) :
  length (triangle_point_picking tl X) = length tl.
Proof.
  unfold triangle_point_picking, enumerate.
  rewrite length_map, length_combine, length_seq. apply Nat.min_id.
Qed.

Lemma triangle_point_picking_in_triangles (tl : list (triangle R))
    (X : nat -> R * R) :
  (forall j, (j < length tl)%nat -> in_unit_square (X j)) ->
  Forall2 in_triangle tl (triangle_point_picking tl X).
Proof.
  intros Hsq. apply Forall2_nth_error.
  - symmetry. apply length_triangle_point_picking.
  - intros i t p Ht Hp. unfold triangle_point_picking in Hp.
    rewrite nth_error_map, nth_error_enumerate, Ht in Hp. cbn in Hp.
    injection Hp as <-. apply point_picking_in_triangle.
    apply Hsq. apply nth_error_Some. congruence.
Qed.

(** What [uniform_sample_mesh] returns when the chooser returns indices of
    triangles. *)
Lemma uniform_sample_mesh_ok (choice : chooser) (tl : list (triangle R))
    (al : list R) (k : nat) (X : nat -> R * R) (ids : list nat) :
  choice (length tl) k (normalized al) = Ok ids ->
  Forall (fun i => (i < length tl)%nat) ids ->
  (forall j, (j < length ids)%nat -> in_unit_square (X j)) ->
  exists pts : list (vec3 R),
    uniform_sample_mesh choice tl al k X = Ok pts /\
    Forall2 (fun i p => exists t, nth_error tl i = Some t /\ in_triangle t p)
            ids pts.
Proof.
  intros Hc Hr Hsq. unfold uniform_sample_mesh.
  change (map (fun a => fdiv a (fsum al)) al) with (normalized al).
  rewrite Hc. cbn [bind].
  destruct (take_ids_cases tl ids) as [(_ & picked & Hp & Hf) | (Hex & _)].
  - rewrite Hp. cbn [bind]. eexists. split; [reflexivity|].
    apply (Forall2_compose _ _ ids picked _ Hf).
    apply triangle_point_picking_in_triangles.
    intros j Hj. apply Hsq.
    rewrite (Forall2_length Hf). exact Hj.
  - exfalso. apply (Forall_not_Exists_range _ _ Hr Hex).
Qed.

(** X8. Over the reals: when the chooser returns indices of triangles, and
    the draws lie in the unit square, [uniform_sample_mesh] returns one
    point per index, in the order of the indices, and each point lies in
    the triangle of its index. *)
Theorem sampled_points_lie_in_chosen_triangles
    (choice : chooser) (tl : list (triangle R)) (al : list R) (k : nat)
    (X : nat -> R * R) (ids : list nat) :
  choice (length tl) k (normalized al) = Ok ids ->
  Forall (fun i => (i < length tl)%nat) ids ->
  (forall j, (j < length ids)%nat -> in_unit_square (X j)) ->
  exists pts : list (vec3 R),
    uniform_sample_mesh choice tl al k X = Ok pts /\
    length pts = length ids /\
    Forall2 (fun i p => exists t, nth_error tl i = Some t /\ in_triangle t p)
            ids pts.
Proof.
  intros Hc Hr Hsq.
  destruct (uniform_sample_mesh_ok choice tl al k X ids Hc Hr Hsq)
    as (pts & Hrun & Hf).
  exists pts. split; [exact Hrun|]. split; [|exact Hf].
  symmetry. apply (Forall2_length Hf).
Qed.

Lemma centre_draw_in_unit_square (j : nat) : in_unit_square (centre_draw j).
Proof. unfold in_unit_square, centre_draw. cbn. lra. Qed.

Lemma sampled_points_lie_in_chosen_triangles_witness :
  exists pts : list (vec3 R),
    uniform_sample_mesh choice_first [unit_triangle]
                        (mesh_area [unit_triangle]) 2 centre_draw = Ok pts /\
    length pts = 2%nat /\
    Forall2 (fun i p => exists t,
                 nth_error [unit_triangle] i = Some t /\ in_triangle t p)
            [0%nat; 0%nat] pts.
Proof.
  apply (sampled_points_lie_in_chosen_triangles choice_first [unit_triangle]
           (mesh_area [unit_triangle]) 2 centre_draw [0%nat; 0%nat]).
  - reflexivity.
  - repeat constructor.
  - intros j _. apply centre_draw_in_unit_square.
Defined.

(** X9. When the chooser returns an index that is no index of a triangle,
    [uniform_sample_mesh] raises [IndexError] and returns no point. *)
Theorem sampling_index_out_of_range
    (choice : chooser) (tl : list (triangle R)) (al : list R) (k : nat)
    (X : nat -> R * R) (ids : list nat) :
  choice (length tl) k (normalized al) = Ok ids ->
  Exists (fun i => (length tl <= i)%nat) ids ->
  uniform_sample_mesh choice tl al k X = Raise IndexError.
Proof.
  intros Hc Hex. unfold uniform_sample_mesh.
  change (map (fun a => fdiv a (fsum al)) al) with (normalized al).
  rewrite Hc. cbn [bind].
  destruct (take_ids_cases tl ids) as [(Hall & _) | (_ & Hr)].
  - exfalso. apply (Forall_not_Exists_range _ _ Hall Hex).
  - rewrite Hr. reflexivity.
Qed.

Lemma sampling_index_out_of_range_witness :
  uniform_sample_mesh (fun _ _ _ => Ok [0%nat; 1%nat]) [unit_triangle]
                      (mesh_area [unit_triangle]) 2 centre_draw
  = Raise IndexError.
Proof.
  apply (sampling_index_out_of_range (fun _ _ _ => Ok [0%nat; 1%nat])
           [unit_triangle] (mesh_area [unit_triangle]) 2 centre_draw
           [0%nat; 1%nat]).
  - reflexivity.
  - apply Exists_cons_tl, Exists_cons_hd. cbn. lia.
Defined.

Lemma selected_points_are_candidates (pts : list point) (ids : list nat) :
  Forall (fun i => (i < length pts)%nat) ids ->
  Forall (fun p => In p pts) (map (pt pts) ids).
Proof.
  intros Hr. apply Forall_map. eapply Forall_impl; [|exact Hr].
  intros i Hi. apply nth_In. exact Hi.
Qed.

Lemma Forall2_on_mesh (tl : list (triangle R)) (ids : list nat)
    (pts : list (vec3 R)) :
  Forall2 (fun i p => exists t, nth_error tl i = Some t /\ in_triangle t p)
          ids pts ->
  Forall (on_mesh tl) pts.
Proof.
  induction 1 as [|i p ids pts (t & Ht & Hin) _ IH]; constructor.
  - exists t. split; [eapply nth_error_In; exact Ht | exact Hin].
  - exact IH.
Qed.

Lemma unit_mesh_area_positive : 0 < fsum (mesh_area (map fst unit_mesh)).
Proof.
  cbn [map fst unit_mesh].
  rewrite fsum_Rsum, mesh_area_map. cbn [map]. rewrite Rsum_cons.
  unfold Rsum. cbn [fold_right].
  unfold sum_sq, cross, vsub, unit_triangle. cbn.
  replace ((1 - 0) * (0 - 0) - (0 - 0) * (1 - 0)) with 0 by ring.
  replace ((0 - 0) * (0 - 0) - (1 - 0) * (0 - 0)) with 0 by ring.
  replace ((0 - 0) * (0 - 0) - (0 - 0) * (1 - 0)) with 0 by ring.
  replace ((1 - 0) * (1 - 0) - (0 - 0) * (0 - 0)) with 1 by ring.
  replace (0 * 0 + 0 * 0 + 1 * 1) with 1 by ring.
  rewrite sqrt_1. lra.
Qed.

(** X10. The pipeline, end to end, over the reals, for a positive sample
    count and a mesh of positive total area: when the command line is
    accepted, the loader returns a mesh, the chooser returns
    [4 * sample_count] indices of triangles and the draws lie in the unit
    square, [main] hands exactly [sample_count] points to the plotting
    code of lines 111-116, every one of them in a triangle of the mesh,
    and the run ends as the plotting code ends: with the plot shown, or
    with the exception the plotting library raised. *)
Theorem main_shows_samples_on_the_mesh
    (k : nat) (mesh : list (triangle R * vec3 R)) (choice : chooser)
    (X : nat -> R * R) (display : list point -> option String.string)
    (ids : list nat) :
  (0 < k)%nat ->
  0 < fsum (mesh_area (map fst mesh)) ->
  choice (length (map fst mesh)) (4 * k)%nat
         (normalized (mesh_area (map fst mesh))) = Ok ids ->
  length ids = (4 * k)%nat ->
  Forall (fun i => (i < length (map fst mesh))%nat) ids ->
  (forall j, (j < 4 * k)%nat -> in_unit_square (X j)) ->
  exists selected : list point,
    length selected = k /\
    Forall (on_mesh (map fst mesh)) selected /\
    main (inr k) (inr mesh) choice X display
    = Some (match display selected with
            | None => Shown selected
            | Some name => UncaughtForeign name
            end).
Proof.
  intros Hk _ Hc Hlen Hr Hsq. unfold main.
  destruct (map fst mesh) as [|t0 tl0] eqn:Etl.
  { exfalso. destruct ids as [|i ids]; cbn in Hlen; [lia|].
    inversion Hr as [|? ? Hi _]; subst. cbn in Hi. lia. }
  destruct (uniform_sample_mesh_ok choice (t0 :: tl0)
              (mesh_area (t0 :: tl0)) (4 * k) X ids Hc Hr)
    as (pts & Hrun & Hf).
  { intros j Hj. apply Hsq. lia. }
  rewrite Hrun.
  destruct (elimination_selects pts (fsum (mesh_area (t0 :: tl0))) k)
    as (sel & _ & Hselr & Hsell & Hel).
  rewrite Hel. exists (map (pt pts) sel). split; [|split].
  - pose proof (Forall2_length Hf) as Hl.
    rewrite length_map, Hsell. unfold point in *. lia.
  - pose proof (Forall2_on_mesh _ _ _ Hf) as Hon.
    pose proof (selected_points_are_candidates pts sel Hselr) as Hin.
    rewrite Forall_forall in *. intros p Hp. apply Hon, Hin, Hp.
  - destruct (display (map (pt pts) sel)); reflexivity.
Qed.

Lemma main_shows_samples_on_the_mesh_witness :
  exists selected : list point,
    length selected = 1%nat /\
    Forall (on_mesh (map fst unit_mesh)) selected /\
    main (inr 1%nat) (inr unit_mesh) choice_first centre_draw (fun _ => None)
    = Some (Shown selected).
Proof.
  apply (main_shows_samples_on_the_mesh 1 unit_mesh choice_first centre_draw
           (fun _ => None) (repeat 0%nat 4)).
  - lia.
  - exact unit_mesh_area_positive.
  - reflexivity.
  - reflexivity.
  - repeat constructor.
  - intros j _. apply centre_draw_in_unit_square.
Defined.

End PipelineMore.

(** ** The weight matrix and the stored weights *)

Section WeightsMore.

Local Open Scope R_scope.




Lemma pair_weight_zero_distance (r : R) : 0 < r -> pair_weight 0 r = 1.
Proof.
  intros Hr. unfold pair_weight. rewrite Rmin_left by lra.
  unfold Rdiv. rewrite Rmult_0_l, Rminus_0_r. apply pow1.
Qed.








End WeightsMore.

Section StoredWeights.

Local Open Scope R_scope.





Lemma current_total_weight_nonneg (pts : list point) (r : R)
    (ids : list nat) (i : nat) :
  0 <= current_total_weight pts r ids i.
Proof.
  unfold current_total_weight. apply Rsum_nonneg.
  apply Forall_map, Forall_forall. intros j _. apply pair_weight_nonneg.
Qed.



Lemma sorted_by_weight (h : list (R * nat)) :
  StronglySorted (le_of tuple_ltb) h ->
  StronglySorted (fun a b => fst a <= fst b) h.
Proof.
  induction 1 as [|a h _ IH Hall]; constructor; [exact IH|].
  eapply Forall_impl; [|exact Hall].
  intros b Hab. apply tuple_le in Hab. lra.
Qed.

Lemma reachable_survivors (pts : list point) (area : R) (k : nat)
    (st : state) :
  reachable pts area k st ->
  (Nat.min (length pts) k <= length (id_set st))%nat.
Proof.
  induction 1 as [W HW | st st' Hreach IH Hk Hstep].
  - cbn [initial_state id_set]. rewrite length_seq. lia.
  - pose proof (reachable_Inv pts area k st Hreach) as HI.
    assert (Hne : id_set st <> []).
    { intros E. rewrite E in Hk. cbn in Hk. lia. }
    destruct (Inv_heap_nonempty pts _ st HI Hne) as (h & w & i & Hh).
    rewrite (elimination_step_ok pts _ st h w i (rmax_nonneg area k) HI Hh)
      in Hstep.
    injection Hstep as <-. cbn [id_set].
    destruct (Inv_last pts _ st h w i HI Hh) as (Hi & _).
    pose proof (length_drop i (id_set st) (inv_nodup _ _ _ HI) Hi). lia.
Qed.

(** X15. Over the reals, for a positive surface area and a positive target
    count, what the loop keeps true in every state it reaches, the last
    one included: the heap has exactly one entry per surviving index, all
    surviving indices are indices of candidates, the heap is in increasing
    order of weight, the weight stored for an index is the sum of its pair
    weights against the surviving neighbours, no stored weight is
    negative, and at least [min (number of candidates) sample_count]
    indices survive. *)
Theorem reachable_state_invariant
    (pts : list point) (area : R) (k : nat) (st : state) :
  0 < area -> (0 < k)%nat ->
  reachable pts area k st ->
  Permutation (map snd (heap st)) (id_set st) /\
  NoDup (id_set st) /\
  Forall (fun i => (i < length pts)%nat) (id_set st) /\
  StronglySorted (fun a b => fst a <= fst b) (heap st) /\
  (forall j : nat,
      In j (id_set st) ->
      weight_of (heap st) j
        = Some (current_total_weight pts (rmax area k) (id_set st) j)) /\
  Forall (fun wj => 0 <= fst wj) (heap st) /\
  (Nat.min (length pts) k <= length (id_set st))%nat.
Proof.
  intros _ _ Hreach.
  pose proof (reachable_Inv pts area k st Hreach) as HI.
  split; [apply (inv_perm _ _ _ HI)|].
  split; [apply (inv_nodup _ _ _ HI)|].
  split; [apply (inv_range _ _ _ HI)|].
  split; [apply sorted_by_weight, (inv_sorted _ _ _ HI)|].
  split; [intros j Hj; apply (Inv_weight_of pts _ st j HI Hj)|].
  split; [|apply (reachable_survivors pts area k st Hreach)].
  eapply Forall_impl; [|apply (inv_weight _ _ _ HI)].
  intros wj ->. apply current_total_weight_nonneg.
Qed.

Lemma twin_points_start_reachable :
  reachable twin_points 1 1 twin_points_start.
Proof.
  apply (reach_init twin_points 1 1 _
           (initial_weights_ok twin_points (rmax 1 1))).
Qed.

Lemma twin_points_weight :
  current_total_weight twin_points (rmax 1 1) [0%nat; 1%nat] 0 = 1.
Proof.
  assert (Hr : 0 < rmax 1 1) by (apply rmax_positive; [lra | lia]).
  assert (Hd : distance twin_points 0 1 = 0).
  { unfold distance, pt, twin_points. cbn [nth]. apply euclidean_refl. }
  assert (Hw : within twin_points (rmax 1 1) 0 1 = true).
  { unfold within. rewrite Hd. apply Rleb_true. lra. }
  unfold current_total_weight. cbn [filter Nat.eqb negb andb].
  rewrite Hw. cbn [map]. rewrite Rsum_cons, Hd.
  rewrite (pair_weight_zero_distance _ Hr). unfold Rsum. cbn. lra.
Qed.

Lemma reachable_state_invariant_witness :
  (Permutation (map snd (heap twin_points_start))
               (id_set twin_points_start) /\
   NoDup (id_set twin_points_start) /\
   Forall (fun i => (i < length twin_points)%nat)
          (id_set twin_points_start) /\
   StronglySorted (fun a b => fst a <= fst b) (heap twin_points_start) /\
   (forall j : nat,
       In j (id_set twin_points_start) ->
       weight_of (heap twin_points_start) j
         = Some (current_total_weight twin_points (rmax 1 1)
                                      (id_set twin_points_start) j)) /\
   Forall (fun wj => 0 <= fst wj) (heap twin_points_start) /\
   (Nat.min (length twin_points) 1 <= length (id_set twin_points_start))%nat) /\
  weight_of (heap twin_points_start) 0 = Some 1.
Proof.
  pose proof (reachable_state_invariant twin_points 1 1 twin_points_start
                ltac:(lra) ltac:(lia) twin_points_start_reachable) as H.
  split; [exact H|].
  destruct H as (_ & _ & _ & _ & Hw & _).
  rewrite (Hw 0%nat) by (left; reflexivity).
  f_equal. exact twin_points_weight.
Defined.

(** X16. Elimination is idempotent: for a non-empty candidate list and a
    positive target, the call returns a non-empty list, and a second call
    on that list with the same target, for any surface area, returns it
    unchanged. *)
Theorem elimination_idempotent (pts : list point) (area : R) (k : nat) :
  pts <> [] -> (0 < k)%nat ->
  exists selected : list point,
    blue_noise_sample_elimination pts area k = Some (Ok selected) /\
    selected <> [] /\
    forall area' : R,
      blue_noise_sample_elimination selected area' k = Some (Ok selected).
Proof.
  intros Hne Hk.
  destruct (elimination_selects pts area k) as (ids & _ & _ & Hl & Hrun).
  exists (map (pt pts) ids). split; [exact Hrun|]. split.
  - intros E. apply (f_equal (@length point)) in E.
    rewrite length_map, Hl in E. change (length (@nil point)) with 0%nat in E.
    assert (Hlen : length pts <> 0%nat)
      by (destruct pts; [contradiction | discriminate]).
    lia.
  - intros area'. apply elimination_keeps_all.
    rewrite length_map. lia.
Qed.

Lemma elimination_idempotent_witness :
  exists selected : list point,
    blue_noise_sample_elimination three_points 1 2 = Some (Ok selected) /\
    selected <> [] /\
    forall area' : R,
      blue_noise_sample_elimination selected area' 2 = Some (Ok selected).
Proof.
  apply (elimination_idempotent three_points 1 2).
  - discriminate.
  - lia.
Defined.

End StoredWeights.

(** ** Elimination depends on the candidates through their distances *)

Section TranslationInvariance.

Local Open Scope R_scope.

Variable d : vec3 R.

Lemma euclidean_shift (a b : point) :
  euclidean (shift d a) (shift d b) = euclidean a b.
Proof.
  unfold euclidean, shift. cbn. f_equal. ring.
Qed.

Lemma squareform_pdist_shift (pts : list point) :
  squareform_pdist (map (shift d) pts) = squareform_pdist pts.
Proof.
  unfold squareform_pdist. rewrite enumerate_map, !map_map.
  apply map_ext. intros [i a]. rewrite !map_map.
  apply map_ext. intros [j b]. cbn [fst snd].
  rewrite !euclidean_shift. reflexivity.
Qed.

Lemma weight_matrix_shift (pts : list point) (r : R) :
  weight_matrix (map (shift d) pts) r = weight_matrix pts r.
Proof.
  unfold weight_matrix. rewrite squareform_pdist_shift. reflexivity.
Qed.

Lemma query_ball_point_shift (pts : list point) (x : point) (r : R) :
  query_ball_point (map (shift d) pts) (shift d x) r
  = query_ball_point pts x r.
Proof.
  unfold query_ball_point. rewrite enumerate_map, filter_map_swap, map_map.
  cbn [fst].
  change (map (fun x0 : nat * vec3 R => fst x0)) with (map (@fst nat point)).
  f_equal. apply filter_ext. intros [j p]. cbn [snd].
  rewrite euclidean_shift. reflexivity.
Qed.

Lemma index_map {A B : Type} (f : A -> B) (l : list A) (i : nat) :
  index (map f l) i = result_map f (index l i).
Proof.
  unfold index. rewrite nth_error_map.
  destruct (nth_error l i); reflexivity.
Qed.

Lemma take_ids_map {A B : Type} (f : A -> B) (l : list A) (ids : list nat) :
  take_ids (map f l) ids = result_map (map f) (take_ids l ids).
Proof.
  induction ids as [|i ids IH]; [reflexivity|].
  cbn [take_ids]. rewrite index_map, IH.
  destruct (index l i); [|reflexivity]. cbn.
  destruct (take_ids l ids); reflexivity.
Qed.

Lemma mapM_ext {A B : Type} (f g : A -> result B) (l : list A) :
  (forall a, f a = g a) -> mapM f l = mapM g l.
Proof.
  intros Hfg. induction l as [|a l IH]; [reflexivity|].
  cbn [mapM]. rewrite Hfg, IH. reflexivity.
Qed.

Lemma initial_weights_shift (pts : list point) (D : list (list R)) (r : R) :
  initial_weights (map (shift d) pts) D r = initial_weights pts D r.
Proof.
  unfold initial_weights. rewrite length_map.
  apply mapM_ext. intros i. cbv beta. unfold index, point.
  rewrite nth_error_map.
  destruct (@nth_error (vec3 R) pts i) as [x|]; [|reflexivity].
  cbn [option_map bind]. rewrite query_ball_point_shift. reflexivity.
Qed.

Lemma elimination_step_shift (pts : list point) (D : list (list R)) (r : R)
    (st : state) :
  elimination_step (map (shift d) pts) D r st = elimination_step pts D r st.
Proof.
  unfold elimination_step.
  destruct (pop (heap st)) as [popped | e]; [|reflexivity]. cbn [bind].
  destruct (set_remove (snd (fst popped)) (id_set st)); [|reflexivity].
  cbn [bind]. unfold index, point. rewrite nth_error_map.
  destruct (@nth_error (vec3 R) pts (snd (fst popped))) as [x|];
    [|reflexivity].
  cbn [option_map bind]. rewrite query_ball_point_shift. reflexivity.
Qed.

Lemma elimination_loop_shift (pts : list point) (D : list (list R)) (r : R)
    (k : nat) :
  forall (fuel : nat) (st : state),
    elimination_loop fuel (map (shift d) pts) D r k st
    = elimination_loop fuel pts D r k st.
Proof.
  induction fuel as [|fuel IH]; intros st; cbn [elimination_loop];
    [reflexivity|].
  rewrite elimination_step_shift.
  destruct (k <? length (id_set st))%nat; [|reflexivity].
  destruct (elimination_step pts D r st); [apply IH | reflexivity].
Qed.

(** X17. Elimination follows the candidates when they are moved: on the
    candidates shifted by a vector it keeps the same indices, that is, it
    returns the shifted points of what it returns on the candidates
    themselves (and raises or runs out of fuel exactly when that call
    does). *)
Theorem elimination_translation (pts : list point) (area : R) (k : nat) :
  blue_noise_sample_elimination (map (shift d) pts) area k
  = option_map (result_map (map (shift d)))
               (blue_noise_sample_elimination pts area k).
Proof.
  unfold blue_noise_sample_elimination.
  rewrite weight_matrix_shift, initial_weights_shift.
  unfold point in *.
  destruct (initial_weights pts (weight_matrix pts (rmax area k))
                            (rmax area k)) as [W | e]; [|reflexivity].
  rewrite length_map, elimination_loop_shift.
  replace (initial_state (map (shift d) pts) W) with (initial_state pts W)
    by (unfold initial_state; rewrite length_map; reflexivity).
  destruct (elimination_loop (length pts) pts (weight_matrix pts (rmax area k))
                             (rmax area k) k (initial_state pts W))
    as [[st | e] |]; try reflexivity.
  cbn [option_map]. f_equal. apply take_ids_map.
Qed.

End TranslationInvariance.

(** ** Candidates farther apart than the interaction radius *)

Section Sparse.

Local Open Scope R_scope.

Variable pts : list point.
Variable r : R.

Hypothesis far :
  forall i j : nat,
    (i < length pts)%nat -> (j < length pts)%nat -> i <> j ->
    2 * r < distance pts i j.










End Sparse.

Section SparseClaim.

Local Open Scope R_scope.




End SparseClaim.

(** ** Elimination does not depend on the unit of length *)

Section ScalingInvariance.

Local Open Scope R_scope.

Variable s : R.
Hypothesis s_pos : 0 < s.

Lemma euclidean_scale (a b : point) :
  euclidean (scale s a) (scale s b) = s * euclidean a b.
Proof.
  unfold euclidean, scale. cbn.
  replace ((s * vx a - s * vx b) * (s * vx a - s * vx b)
           + (s * vy a - s * vy b) * (s * vy a - s * vy b)
           + (s * vz a - s * vz b) * (s * vz a - s * vz b))
    with ((s * s) * ((vx a - vx b) * (vx a - vx b)
                     + (vy a - vy b) * (vy a - vy b)
                     + (vz a - vz b) * (vz a - vz b))) by ring.
  rewrite sqrt_mult_alt by nra.
  rewrite sqrt_square by lra. reflexivity.
Qed.

Lemma rmax_scale (area : R) (k : nat) :
  rmax (s * s * area) k = s * rmax area k.
Proof.
  unfold rmax.
  replace (s * s * area / (2 * INR k * sqrt 3))
    with ((s * s) * (area / (2 * INR k * sqrt 3)))
    by (unfold Rdiv; ring).
  rewrite sqrt_mult_alt by nra.
  rewrite sqrt_square by lra. reflexivity.
Qed.

Lemma Rmin_scale (x y : R) : Rmin (s * x) (s * y) = s * Rmin x y.
Proof.
  unfold Rmin.
  destruct (Rle_dec (s * x) (s * y)), (Rle_dec x y); try reflexivity; nra.
Qed.

Lemma weight_entry_scale (x r : R) :
  (1 - Rmin (s * x) (2 * (s * r)) / (2 * (s * r))) ^ alpha
  = (1 - Rmin x (2 * r) / (2 * r)) ^ alpha.
Proof.
  replace (2 * (s * r)) with (s * (2 * r)) by ring.
  rewrite Rmin_scale. f_equal. f_equal.
  unfold Rdiv. rewrite Rinv_mult.
  replace (s * Rmin x (2 * r) * (/ s * / (2 * r)))
    with ((s * / s) * (Rmin x (2 * r) * / (2 * r))) by ring.
  rewrite Rinv_r by lra. ring.
Qed.

Lemma weight_matrix_scale (pts : list point) (r : R) :
  weight_matrix (map (scale s) pts) (s * r) = weight_matrix pts r.
Proof.
  unfold weight_matrix, squareform_pdist.
  rewrite enumerate_map, !map_map.
  apply map_ext. intros [i a]. rewrite !map_map.
  apply map_ext. intros [j b]. cbn [fst snd].
  rewrite !euclidean_scale.
  destruct (i <? j)%nat; [apply weight_entry_scale|].
  destruct (j <? i)%nat; [apply weight_entry_scale|].
  replace 0 with (s * 0) at 1 by ring. apply weight_entry_scale.
Qed.

Lemma query_ball_point_scale (pts : list point) (x : point) (r : R) :
  query_ball_point (map (scale s) pts) (scale s x) (2 * (s * r))
  = query_ball_point pts x (2 * r).
Proof.
  unfold query_ball_point. rewrite enumerate_map, filter_map_swap, map_map.
  cbn [fst].
  change (map (fun x0 : nat * vec3 R => fst x0)) with (map (@fst nat point)).
  f_equal. apply filter_ext. intros [j p]. cbn [snd].
  rewrite euclidean_scale. unfold Rleb.
  destruct (Rle_dec (s * euclidean p x) (2 * (s * r))),
           (Rle_dec (euclidean p x) (2 * r)); try reflexivity; nra.
Qed.

Lemma initial_weights_scale (pts : list point) (D : list (list R)) (r : R) :
  initial_weights (map (scale s) pts) D (s * r) = initial_weights pts D r.
Proof.
  unfold initial_weights. rewrite length_map.
  apply mapM_ext. intros i. cbv beta. unfold index, point.
  rewrite nth_error_map.
  destruct (@nth_error (vec3 R) pts i) as [x|]; [|reflexivity].
  cbn [option_map bind]. rewrite query_ball_point_scale. reflexivity.
Qed.

Lemma elimination_step_scale (pts : list point) (D : list (list R)) (r : R)
    (st : state) :
  elimination_step (map (scale s) pts) D (s * r) st
  = elimination_step pts D r st.
Proof.
  unfold elimination_step.
  destruct (pop (heap st)) as [popped | e]; [|reflexivity]. cbn [bind].
  destruct (set_remove (snd (fst popped)) (id_set st)); [|reflexivity].
  cbn [bind]. unfold index, point. rewrite nth_error_map.
  destruct (@nth_error (vec3 R) pts (snd (fst popped))) as [x|];
    [|reflexivity].
  cbn [option_map bind]. rewrite query_ball_point_scale. reflexivity.
Qed.

Lemma elimination_loop_scale (pts : list point) (D : list (list R)) (r : R)
    (k : nat) :
  forall (fuel : nat) (st : state),
    elimination_loop fuel (map (scale s) pts) D (s * r) k st
    = elimination_loop fuel pts D r k st.
Proof.
  induction fuel as [|fuel IH]; intros st; cbn [elimination_loop];
    [reflexivity|].
  rewrite elimination_step_scale.
  destruct (k <? length (id_set st))%nat; [|reflexivity].
  destruct (elimination_step pts D r st); [apply IH | reflexivity].
Qed.

(** X19. Elimination does not depend on the unit of length: with all
    candidates scaled by [s > 0] and the surface area scaled by [s * s],
    it keeps the same indices, that is, it returns the scaled points of
    what it returns on the candidates themselves. *)
Theorem elimination_scaling (pts : list point) (area : R) (k : nat) :
  blue_noise_sample_elimination (map (scale s) pts) (s * s * area) k
  = option_map (result_map (map (scale s)))
               (blue_noise_sample_elimination pts area k).
Proof.
  unfold blue_noise_sample_elimination.
  rewrite rmax_scale, weight_matrix_scale, initial_weights_scale.
  unfold point in *.
  destruct (initial_weights pts (weight_matrix pts (rmax area k))
                            (rmax area k)) as [W | e]; [|reflexivity].
  rewrite length_map, elimination_loop_scale.
  replace (initial_state (map (scale s) pts) W) with (initial_state pts W)
    by (unfold initial_state; rewrite length_map; reflexivity).
  destruct (elimination_loop (length pts) pts (weight_matrix pts (rmax area k))
                             (rmax area k) k (initial_state pts W))
    as [[st | e] |]; try reflexivity.
  cbn [option_map]. f_equal. apply take_ids_map.
Qed.

End ScalingInvariance.

Section ScalingWitness.

Local Open Scope R_scope.

Lemma elimination_scaling_witness :
  blue_noise_sample_elimination (map (scale 2) three_points) (2 * 2 * 1) 2
  = option_map (result_map (map (scale 2)))
               (blue_noise_sample_elimination three_points 1 2).
Proof.
  apply (elimination_scaling 2 ltac:(lra) three_points 1 2).
Defined.

End ScalingWitness.

(** ** Areas and probabilities in binary64 *)

Section FloatSigns.

Import SpecFloat FloatAxioms.

Lemma binary_round_aux_nonneg (m e : Z) (l : location) :
  SF_nonneg (binary_round_aux FloatOps.prec FloatOps.emax false m e l) = true.
Proof.
  unfold binary_round_aux.
  destruct (shr_fexp FloatOps.prec FloatOps.emax m e l) as [mrs' e'].
  destruct (shr_fexp FloatOps.prec FloatOps.emax
              (round_nearest_even (shr_m mrs') (loc_of_shr_record mrs'))
              e' loc_Exact) as [mrs'' e''].
  destruct (shr_m mrs''); try reflexivity.
  destruct (Z.leb e'' (Z.sub FloatOps.emax FloatOps.prec)); reflexivity.
Qed.

Lemma binary_round_nonneg (m : positive) (e : Z) :
  SF_nonneg (binary_round FloatOps.prec FloatOps.emax false m e) = true.
Proof.
  unfold binary_round.
  destruct (shl_align m e _) as [mz ez]. apply binary_round_aux_nonneg.
Qed.

Lemma SFmul_self_nonneg (x : spec_float) :
  SF_nonneg (SF64mul x x) = true.
Proof.
  unfold SF64mul, SFmul.
  destruct x as [[|] | [|] | | [|] m e]; try reflexivity;
    apply binary_round_aux_nonneg.
Qed.

Lemma SFadd_nonneg (x y : spec_float) :
  SF_nonneg x = true -> SF_nonneg y = true -> SF_nonneg (SF64add x y) = true.
Proof.
  unfold SF64add, SFadd.
  destruct x as [[|] | [|] | | [|] mx ex]; cbn [SF_nonneg];
    try discriminate;
    destruct y as [[|] | [|] | | [|] my ey]; cbn [SF_nonneg];
    try discriminate; intros _ _; try reflexivity.
  cbn [cond_Zopp Z.add]. unfold binary_normalize.
  apply binary_round_nonneg.
Qed.

Lemma SFsqrt_nonneg (x : spec_float) :
  SF_nonneg x = true -> SF_nonneg (SF64sqrt x) = true.
Proof.
  unfold SF64sqrt, SFsqrt.
  destruct x as [[|] | [|] | | [|] mx ex]; cbn [SF_nonneg];
    try discriminate; intros _; try reflexivity.
  destruct (SFsqrt_core_binary FloatOps.prec FloatOps.emax (Zpos mx) ex)
    as [[mz ez] lz].
  apply binary_round_aux_nonneg.
Qed.

Lemma SFmul_half_nonneg (x : spec_float) :
  SF_nonneg x = true ->
  SF_nonneg (SF64mul x (FloatOps.Prim2SF FloatLit.half)) = true.
Proof.
  replace (FloatOps.Prim2SF FloatLit.half)
    with (S754_finite false 4503599627370496 (-53))
    by (vm_compute; reflexivity).
  unfold SF64mul, SFmul.
  destruct x as [[|] | [|] | | [|] mx ex]; cbn [SF_nonneg];
    try discriminate; intros _; try reflexivity.
  apply binary_round_aux_nonneg.
Qed.

Lemma area_float_nonneg (t : triangle PrimFloat.float) :
  SF_nonneg (FloatOps.Prim2SF (area_float t)) = true.
Proof.
  unfold area_float, sum_sq. cbn [fadd fmul float_arith].
  rewrite mul_spec. apply SFmul_half_nonneg.
  rewrite sqrt_spec. apply SFsqrt_nonneg.
  rewrite add_spec. apply SFadd_nonneg.
  - rewrite add_spec. apply SFadd_nonneg;
      rewrite mul_spec; apply SFmul_self_nonneg.
  - rewrite mul_spec. apply SFmul_self_nonneg.
Qed.

Lemma nonneg_not_below_zero (a : PrimFloat.float) :
  SF_nonneg (FloatOps.Prim2SF a) = true ->
  PrimFloat.ltb a PrimFloat.zero = false /\ a <> PrimFloat.neg_zero.
Proof.
  intros Hnn. split.
  - rewrite ltb_spec.
    replace (FloatOps.Prim2SF PrimFloat.zero) with (S754_zero false)
      by (vm_compute; reflexivity).
    destruct (FloatOps.Prim2SF a) as [[|] | [|] | | [|] m e];
      cbn [SF_nonneg] in Hnn; try discriminate; reflexivity.
  - intros ->. vm_compute in Hnn. discriminate.
Qed.

(** X20. In binary64, whatever the coordinates are (NaN and infinities
    included), no area computed by [mesh_area] is below zero, and none is
    the negative zero: an area is NaN or has its sign bit clear. *)
Theorem mesh_area_float_never_negative (tl : list (triangle PrimFloat.float)) :
  Forall (fun a => PrimFloat.ltb a PrimFloat.zero = false /\
                   a <> PrimFloat.neg_zero)
         (mesh_area tl).
Proof.
  rewrite mesh_area_float_map. apply Forall_map, Forall_forall.
  intros t _. apply nonneg_not_below_zero. apply (area_float_nonneg t).
Qed.

End FloatSigns.

Section FloatNaN.

Import SpecFloat FloatAxioms.

Lemma NaN_spec (x : PrimFloat.float) :
  NaN x <-> FloatOps.Prim2SF x = S754_nan.
Proof.
  unfold NaN, PrimFloat.is_nan. rewrite eqb_spec.
  destruct (FloatOps.Prim2SF x) as [s | s | | s m e].
  - destruct s; cbn; split; discriminate.
  - destruct s; cbn; split; discriminate.
  - cbn. split; reflexivity.
  - unfold SFeqb. rewrite SFcompare_finite_refl. cbn. split; discriminate.
Qed.

Lemma NaN_eq (x : PrimFloat.float) : NaN x -> x = PrimFloat.nan.
Proof.
  intros Hx. apply NaN_spec in Hx. apply Prim2SF_inj. rewrite Hx.
  vm_compute. reflexivity.
Qed.

Ltac nan_cases x y :=
  rewrite !NaN_spec;
  destruct (FloatOps.Prim2SF x) as [[|] | [|] | | [|] ? ?];
  destruct (FloatOps.Prim2SF y) as [[|] | [|] | | [|] ? ?];
  intros; try reflexivity; try discriminate.

Lemma NaN_add_l (x y : PrimFloat.float) : NaN x -> NaN (PrimFloat.add x y).
Proof.
  rewrite (NaN_spec (PrimFloat.add x y)), add_spec. unfold SF64add, SFadd.
  nan_cases x y.
Qed.

Lemma NaN_add_r (x y : PrimFloat.float) : NaN y -> NaN (PrimFloat.add x y).
Proof.
  rewrite (NaN_spec (PrimFloat.add x y)), add_spec. unfold SF64add, SFadd.
  nan_cases x y.
Qed.

Lemma NaN_sub_l (x y : PrimFloat.float) : NaN x -> NaN (PrimFloat.sub x y).
Proof.
  rewrite (NaN_spec (PrimFloat.sub x y)), sub_spec. unfold SF64sub, SFsub.
  nan_cases x y.
Qed.

Lemma NaN_sub_r (x y : PrimFloat.float) : NaN y -> NaN (PrimFloat.sub x y).
Proof.
  rewrite (NaN_spec (PrimFloat.sub x y)), sub_spec. unfold SF64sub, SFsub.
  nan_cases x y.
Qed.

Lemma NaN_mul_l (x y : PrimFloat.float) : NaN x -> NaN (PrimFloat.mul x y).
Proof.
  rewrite (NaN_spec (PrimFloat.mul x y)), mul_spec. unfold SF64mul, SFmul.
  nan_cases x y.
Qed.

Lemma NaN_mul_r (x y : PrimFloat.float) : NaN y -> NaN (PrimFloat.mul x y).
Proof.
  rewrite (NaN_spec (PrimFloat.mul x y)), mul_spec. unfold SF64mul, SFmul.
  nan_cases x y.
Qed.

Lemma NaN_div_r (x y : PrimFloat.float) : NaN y -> NaN (PrimFloat.div x y).
Proof.
  rewrite (NaN_spec (PrimFloat.div x y)), div_spec. unfold SF64div, SFdiv.
  nan_cases x y.
Qed.

Lemma NaN_sqrt (x : PrimFloat.float) : NaN x -> NaN (PrimFloat.sqrt x).
Proof.
  rewrite (NaN_spec (PrimFloat.sqrt x)), sqrt_spec, NaN_spec.
  intros ->. reflexivity.
Qed.

Create HintDb nan_db.
#[local] Hint Resolve NaN_add_l NaN_add_r NaN_sub_l NaN_sub_r NaN_mul_l
  NaN_mul_r NaN_sqrt : nan_db.

Lemma nan_coordinate_area (t : triangle PrimFloat.float) :
  Exists NaN (coordinates t) -> NaN (area_float t).
Proof.
  destruct t as [[a0 b0 c0] [a1 b1 c1] [a2 b2 c2]].
  unfold coordinates, area_float, sum_sq, cross, vsub. cbn.
  intros Hex.
  repeat (apply Exists_cons in Hex; destruct Hex as [Hex | Hex]);
    try (apply Exists_nil in Hex; contradiction);
    apply NaN_mul_l, NaN_sqrt; eauto 8 with nan_db.
Qed.

Lemma fold_add_NaN_acc (l : list PrimFloat.float) (acc : PrimFloat.float) :
  NaN acc -> NaN (fold_left PrimFloat.add l acc).
Proof.
  revert acc. induction l as [|a l IH]; intros acc Hacc; cbn; [exact Hacc|].
  apply IH, NaN_add_l, Hacc.
Qed.

Lemma fsum_NaN (l : list PrimFloat.float) : Exists NaN l -> NaN (fsum l).
Proof.
  intros Hex. unfold fsum. cbn [fadd lit0 float_arith].
  generalize PrimFloat.zero.
  induction Hex as [a l Ha | a l _ IH]; intros acc; cbn [fold_left].
  - apply fold_add_NaN_acc, NaN_add_r, Ha.
  - apply IH.
Qed.

Lemma normalized_NaN (al : list PrimFloat.float) :
  Exists NaN al -> normalized al = repeat PrimFloat.nan (length al).
Proof.
  intros Hex. pose proof (fsum_NaN al Hex) as HT.
  unfold normalized. cbn [fdiv float_arith].
  generalize dependent (fsum al). intros T HT. clear Hex.
  induction al as [|a al IH]; [reflexivity|].
  cbn [map length repeat]. rewrite IH.
  rewrite (NaN_eq _ (NaN_div_r a T HT)). reflexivity.
Qed.

(** X21. In binary64 a single NaN coordinate anywhere in the mesh spoils
    the whole sampling distribution: the area of its triangle is NaN, the
    total area is NaN, and every probability that [uniform_sample_mesh]
    hands to the index chooser, for every triangle, is NaN. *)
Theorem nan_coordinate_spoils_probabilities
    (tl : list (triangle PrimFloat.float)) :
  Exists (fun t => Exists NaN (coordinates t)) tl ->
  Exists NaN (mesh_area tl) /\
  NaN (fsum (mesh_area tl)) /\
  forall (choice : chooser) (k : nat)
         (X : nat -> PrimFloat.float * PrimFloat.float),
    uniform_sample_mesh choice tl (mesh_area tl) k X
    = bind (choice (length tl) k (repeat PrimFloat.nan (length tl)))
           (fun ids => bind (take_ids tl ids)
                            (fun picked =>
                               Ok (triangle_point_picking picked X))).
Proof.
  intros Hex.
  assert (Harea : Exists NaN (mesh_area tl)).
  { rewrite mesh_area_float_map. apply Exists_exists in Hex.
    destruct Hex as (t & Ht & Hnan). apply Exists_exists.
    exists (area_float t). split.
    - apply (in_map area_float) in Ht. exact Ht.
    - apply nan_coordinate_area. exact Hnan. }
  split; [exact Harea|]. split; [apply fsum_NaN; exact Harea|].
  intros choice k X. unfold uniform_sample_mesh.
  change (map (fun a => fdiv a (fsum (mesh_area tl))) (mesh_area tl))
    with (normalized (mesh_area tl)).
  rewrite (normalized_NaN _ Harea).
  replace (length (mesh_area tl)) with (length tl)
    by (unfold mesh_area; rewrite !length_map; reflexivity).
  reflexivity.
Qed.

Lemma nan_coordinate_spoils_probabilities_witness :
  Exists NaN (mesh_area [unit_triangle_float; nan_triangle]) /\
  NaN (fsum (mesh_area [unit_triangle_float; nan_triangle])) /\
  forall (choice : chooser) (k : nat)
         (X : nat -> PrimFloat.float * PrimFloat.float),
    uniform_sample_mesh choice [unit_triangle_float; nan_triangle]
                        (mesh_area [unit_triangle_float; nan_triangle]) k X
    = bind (choice 2%nat k [PrimFloat.nan; PrimFloat.nan])
           (fun ids => bind (take_ids [unit_triangle_float; nan_triangle] ids)
                            (fun picked =>
                               Ok (triangle_point_picking picked X))).
Proof.
  apply (nan_coordinate_spoils_probabilities
           [unit_triangle_float; nan_triangle]).
  apply Exists_cons_tl, Exists_cons_hd, Exists_cons_hd.
  vm_compute. reflexivity.
Defined.

End FloatNaN.

(** ** Where binary64 departs from exact arithmetic *)

Section RoundingShows.

Local Open Scope R_scope.

(* The real number a float literal stands for. *)
Ltac float_value :=
  unfold float_real;
  match goal with
  | |- SF2R (FloatOps.Prim2SF ?x) = _ =>
      let s := eval vm_compute in (FloatOps.Prim2SF x) in
      replace (FloatOps.Prim2SF x) with s by (vm_compute; reflexivity)
  end;
  cbn [SF2R powerRZ]; f_equal; try (simpl; lra).

Lemma float_real_zero : float_real PrimFloat.zero = Some 0.
Proof. float_value. Qed.

Lemma float_real_one : float_real PrimFloat.one = Some 1.
Proof. float_value. Qed.

Lemma float_real_three : float_real FloatCases.three = Some 3.
Proof. float_value. Qed.

Lemma float_real_half : float_real FloatLit.half = Some (/ 2).
Proof. float_value. Qed.

Lemma float_real_above_half :
  float_real FloatCases.above_half
  = Some (4503599627370497 / 9007199254740992).
Proof. float_value. Qed.

Lemma float_real_wide : float_real FloatCases.wide = Some 9007199254740994.
Proof. float_value. Qed.

Lemma float_real_wider : float_real FloatCases.wider = Some 27021597764222980.
Proof. float_value. Qed.

Lemma needle_collinear : collinear needle.
Proof.
  exists (mk3 9007199254740993 1 0), 1, 3.
  unfold needle. cbn. split; f_equal; lra.
Qed.

(** C7, counterexample: two triangles with finite binary64 coordinates and
    collinear vertices whose computed area is not 0.  The vertices of the
    first lie on one line, and its area comes out as 2: the edge
    [v1 - v0] is rounded from [2^53 + 1] to [2^53] and the edge [v2 - v0]
    from [3 * 2^53 + 3] to [3 * 2^53 + 4].  The last two vertices of the
    second coincide, and its area comes out as NaN, which is not a
    non-negative number: the products overflow and their difference is
    [inf - inf]. *)
Lemma mesh_area_collinear_not_zero :
  Forall2 (fun c r => float_real c = Some r)
          (coordinates needle_float) (coordinates needle) /\
  collinear needle /\
  mesh_area [needle_float] = [FloatCases.two] /\
  v1 far_float = v2 far_float /\
  forallb PrimFloat.is_finite (coordinates far_float) = true /\
  mesh_area [far_float] = [PrimFloat.nan] /\
  PrimFloat.leb PrimFloat.zero PrimFloat.nan = false.
Proof.
  split.
  { unfold coordinates, needle_float, needle. cbn.
    repeat constructor;
      first [ exact float_real_zero | exact float_real_one
            | exact float_real_three | exact float_real_wide
            | exact float_real_wider ]. }
  split; [exact needle_collinear|].
  split; [vm_compute; reflexivity|].
  split; [reflexivity|].
  split; [vm_compute; reflexivity|].
  split; vm_compute; reflexivity.
Qed.

(** C7 (as the code behaves). For a triangle at place [i] of the list,
    [mesh_area] returns one value per triangle and the value at place [i]
    belongs to that triangle.  Over the reals this value is half the norm
    of the cross product of the two edge vectors at [v0], it is
    non-negative, and it is exactly 0 when the vertices are collinear.
    In binary64 the value is never below zero and never the negative
    zero: it is NaN or has its sign bit clear. *)
Theorem mesh_area_exact_and_binary64 (i : nat) :
  (forall (tl : list (triangle R)) (t : triangle R),
      nth_error tl i = Some t ->
      length (mesh_area tl) = length tl /\
      exists a : R,
        nth_error (mesh_area tl) i = Some a /\
        a = / 2 * vnorm (cross (vsub (v1 t) (v0 t)) (vsub (v2 t) (v0 t))) /\
        0 <= a /\
        (collinear t -> a = 0)) /\
  (forall (tl : list (triangle PrimFloat.float))
          (t : triangle PrimFloat.float),
      nth_error tl i = Some t ->
      length (mesh_area tl) = length tl /\
      exists a : PrimFloat.float,
        nth_error (mesh_area tl) i = Some a /\
        PrimFloat.ltb a PrimFloat.zero = false /\
        a <> PrimFloat.neg_zero).
Proof.
  split.
  - intros tl t Ht.
    destruct (mesh_area_cross_formula tl) as [Hlen Hall].
    split; [exact Hlen | apply Hall; exact Ht].
  - intros tl t Ht. rewrite mesh_area_float_map. split.
    + apply length_map.
    + exists (area_float t). split.
      * rewrite nth_error_map, Ht. reflexivity.
      * apply nonneg_not_below_zero, area_float_nonneg.
Qed.

Lemma mesh_area_exact_and_binary64_witness :
  (length (mesh_area [unit_triangle]) = 1%nat /\
   exists a : R,
     nth_error (mesh_area [unit_triangle]) 0 = Some a /\
     a = / 2 * vnorm (cross (vsub (v1 unit_triangle) (v0 unit_triangle))
                            (vsub (v2 unit_triangle) (v0 unit_triangle))) /\
     0 <= a /\
     (collinear unit_triangle -> a = 0)) /\
  (length (mesh_area [unit_triangle_float]) = 1%nat /\
   exists a : PrimFloat.float,
     nth_error (mesh_area [unit_triangle_float]) 0 = Some a /\
     PrimFloat.ltb a PrimFloat.zero = false /\
     a <> PrimFloat.neg_zero).
Proof.
  split.
  - apply (proj1 (mesh_area_exact_and_binary64 0) [unit_triangle]
                 unit_triangle).
    reflexivity.
  - apply (proj2 (mesh_area_exact_and_binary64 0) [unit_triangle_float]
                 unit_triangle_float).
    reflexivity.
Defined.

(** C6, counterexample: the draw [(.5, .5 + 2^-53)] lies in the unit
    square and the sum of its two numbers is above 1, but the sum as
    binary64 computes it is 1, so the draw is not folded; the point picked
    for the unit right triangle is the draw itself, and it lies outside
    the triangle. *)
Lemma point_picking_unfolded_outside :
  exists u v : R,
    float_real (fst diagonal_draw) = Some u /\
    float_real (snd diagonal_draw) = Some v /\
    in_unit_square (u, v) /\
    u + v > 1 /\
    fold_square diagonal_draw = diagonal_draw /\
    triangle_point_picking [unit_triangle_float] (fun _ => diagonal_draw)
    = [mk3 (fst diagonal_draw) (snd diagonal_draw) PrimFloat.zero] /\
    float_real PrimFloat.zero = Some 0 /\
    ~ in_triangle unit_triangle (mk3 u v 0).
Proof.
  exists (/ 2), (4503599627370497 / 9007199254740992).
  split; [exact float_real_half|].
  split; [exact float_real_above_half|].
  split; [unfold in_unit_square; cbn; lra|].
  split; [lra|].
  split; [vm_compute; reflexivity|].
  split; [vm_compute; reflexivity|].
  split; [exact float_real_zero|].
  intros (a & b & c & Ha & Hb & Hc & Hsum & Hp).
  unfold unit_triangle in Hp. cbn in Hp.
  injection Hp as Hx Hy _. lra.
Qed.

End RoundingShows.
